(** * Monte Carlo option pricing: a model of the notebook's numerical cells

    The notebook [Monte_Carlo_Option_Pricing.ipynb] prices European and Asian
    options by simulating geometric Brownian motion with antithetic variates,
    and cross-checks the European case against the Black-Scholes formula.

    Numbers.  The notebook computes on IEEE double-precision floats (Python
    [float], numpy [float64]).  This development reads every arithmetic
    operation in exact real arithmetic: a float is a real number, [+], [*],
    [/], [np.exp], [np.log], [np.sqrt] are the operations of [R].  Rounding,
    overflow and underflow are not modelled, with two exceptions where the
    result of the program depends on them.  The step count [int(T / dt)] is
    also computed on doubles, with the division of the machine
    ([n_steps_double]).  The Black-Scholes formula follows numpy through the
    infinities and [nan] of a logarithm of zero, a square root of a negative
    number and a division by zero ([npfloat]).  In the simulation cell,
    where numpy leaves the reals without raising (the mean of an empty axis,
    a complex power) the model stops with the outcome [OutsideReals]; what
    the code does with such a value afterwards is not followed.

    Randomness.  [np.random.normal] is read as an arbitrary source
    [normal : nat -> nat -> R] giving the draw at row [i], column [j]; a
    statement quantified over [normal] holds for every matrix the generator
    can return. *)

From Stdlib Require Import Floats.
From Stdlib Require Import String Ascii Reals Lra Lia ZArith List Bool.
From Stdlib Require Import Zfloor.
Import ListNotations.

Open Scope string_scope.
Open Scope R_scope.

(** ** Outcomes of a run *)

(** The Python exceptions the numerical cells can raise. *)
Inductive exn : Set :=
| AssertionError
| ZeroDivisionError
| ValueError
| IndexError
| NameError
| OverflowError.

(** A cell either produces a value, raises, or carries on in numpy with a
    value that is not a real number (only a [RuntimeWarning] is emitted). *)
Inductive outcome (A : Type) : Type :=
| Value (a : A)
| Raised (e : exn)
| OutsideReals.

Arguments Value {A} a.
Arguments Raised {A} e.
Arguments OutsideReals {A}.

Definition bind {A B : Type} (m : outcome A) (k : A -> outcome B) : outcome B :=
  match m with
  | Value a => k a
  | Raised e => Raised e
  | OutsideReals => OutsideReals
  end.

Notation "x <- m ;; k" := (bind m (fun x => k))
  (at level 61, m at next level, right associativity).

(** [assert cond] of the validation cell. *)
Definition assert (cond : bool) : outcome unit :=
  if cond then Value tt else Raised AssertionError.

(** ** Python and numpy primitives *)

(** [int(x)] on a float: truncation toward zero. *)
Definition py_int (x : R) : Z :=
  if Rle_dec 0 x then Zfloor x else Zceil x.

(** A two-dimensional [ndarray]: its rows, and the length of axis 1, which
    numpy keeps in the shape even when there is no row. *)
Record ndarray : Type := mk_ndarray {
  rows : list (list R);
  ncols : nat
}.

Definition nrows (a : ndarray) : nat := length (rows a).

(** Every row has the length the shape announces. *)
Definition well_shaped (a : ndarray) : Prop :=
  Forall (fun r => length r = ncols a) (rows a).

(** Elementwise application of a scalar function (numpy broadcasting of a
    scalar expression over an array). *)
Definition elementwise (f : R -> R) (a : ndarray) : ndarray :=
  {| rows := map (map f) (rows a); ncols := ncols a |}.

(** [np.random.normal(0, 1, (d0, d1))]: a negative dimension raises
    [ValueError]; otherwise entry [(i, j)] is the draw [normal i j]. *)
Definition np_random_normal (normal : nat -> nat -> R) (d0 d1 : Z)
  : outcome ndarray :=
  if ((d0 <? 0) || (d1 <? 0))%Z then Raised ValueError
  else Value {| rows := map (fun i => map (normal i) (seq 0 (Z.to_nat d1)))
                            (seq 0 (Z.to_nat d0));
                ncols := Z.to_nat d1 |}.

(** [np.vstack((a, b))]: the rows of [a] followed by the rows of [b]. *)
Definition np_vstack (a b : ndarray) : ndarray :=
  {| rows := rows a ++ rows b; ncols := ncols a |}.

(** The running product of [np.cumprod] along one row: the first entry is
    copied, every later entry is the previous output times the input. *)
Fixpoint cumprod_from (acc : R) (l : list R) : list R :=
  match l with
  | [] => []
  | x :: l' => acc * x :: cumprod_from (acc * x) l'
  end.

Definition cumprod (l : list R) : list R :=
  match l with
  | [] => []
  | x :: l' => x :: cumprod_from x l'
  end.

(** [np.cumprod(a, axis=1)]. *)
Definition np_cumprod_axis1 (a : ndarray) : ndarray :=
  {| rows := map cumprod (rows a); ncols := ncols a |}.

(** Sum of the entries of a vector, accumulated from the left. *)
Definition np_sum (l : list R) : R := fold_left Rplus l 0.

(** [np.mean(v)] of a vector: [nan] (with a warning) when it is empty. *)
Definition np_mean (v : list R) : outcome R :=
  match v with
  | [] => OutsideReals
  | _ => Value (np_sum v / INR (length v))
  end.

(** [np.mean(a, axis=1)]: one mean per row; a row of length zero gives
    [nan], an array without rows gives the empty vector. *)
Fixpoint means (l : list (list R)) : outcome (list R) :=
  match l with
  | [] => Value []
  | r :: l' => m <- np_mean r ;; ms <- means l' ;; Value (m :: ms)
  end.

Definition np_mean_axis1 (a : ndarray) : outcome (list R) := means (rows a).

(** [a[:, -1]]: the last column; [IndexError] when axis 1 is empty, whether
    or not there are rows. *)
Definition last_column (a : ndarray) : outcome (list R) :=
  if Nat.eqb (ncols a) 0 then Raised IndexError
  else Value (map (fun r => last r 0) (rows a)).

(** [np.maximum(v, 0)]. *)
Definition np_maximum0 (v : list R) : list R := map (fun x => Rmax x 0) v.

(** ** The simulation cell *)

(** [n_steps = int(T / dt)]; the Python division raises when [dt] is zero.
    The quotient is read exactly; [n_steps_double] below has the rounded
    quotient of two doubles. *)
Definition n_steps (T dt : R) : outcome Z :=
  if Req_dec_T dt 0 then Raised ZeroDivisionError
  else Value (py_int (T / dt)).

(** [random_walks = np.random.normal(0, 1, (int(n_simul/2), n_steps))]. *)
Definition random_walks (normal : nat -> nat -> R) (n_simul : Z) (n_steps : Z)
  : outcome ndarray :=
  np_random_normal normal (py_int (IZR n_simul / 2)) n_steps.

(** [antithetic_random_walks = np.vstack((random_walks, -random_walks))]. *)
Definition antithetic_random_walks (random_walks : ndarray) : ndarray :=
  np_vstack random_walks (elementwise Ropp random_walks).

(** The growth factor of one step driven by the draw [z]. *)
Definition step_factor (rf sigma dt z : R) : R :=
  exp ((rf - (sigma ^ 2) / 2) * dt + sigma * sqrt dt * z).

(** [coeff_multiplicateur = np.exp((rf - (sigma**2)/2)*dt
      + sigma*(dt**0.5)*antithetic_random_walks)].  For a negative [dt] the
    power [dt**0.5] is a complex number: the model stops there, and what the
    code does with the complex array (it can still raise later, on an empty
    time axis for instance) is not followed. *)
Definition coeff_multiplicateur (rf sigma dt : R) (antithetic : ndarray)
  : outcome ndarray :=
  if Rlt_dec dt 0 then OutsideReals
  else Value (elementwise (step_factor rf sigma dt) antithetic).

(** [simulated_prices = S0 * np.cumprod(coeff_multiplicateur, axis=1)]. *)
Definition simulated_prices (S0 : R) (coeff : ndarray) : ndarray :=
  elementwise (Rmult S0) (np_cumprod_axis1 coeff).

(** The [if]/[elif] chain over [option_nature] and [option_type]; when no
    branch assigns [payoff] the next statement raises [NameError]. *)
Definition payoff (option_nature option_type : string) (K : R)
    (simulated_prices : ndarray) : outcome (list R) :=
  if (option_nature =? "european")%string then
    if (option_type =? "call")%string then
      s <- last_column simulated_prices ;;
      Value (np_maximum0 (map (fun x => x - K) s))
    else if (option_type =? "put")%string then
      s <- last_column simulated_prices ;;
      Value (np_maximum0 (map (fun x => K - x) s))
    else Raised NameError
  else if (option_nature =? "asiatic")%string then
    if (option_type =? "call")%string then
      m <- np_mean_axis1 simulated_prices ;;
      Value (np_maximum0 (map (fun x => x - K) m))
    else if (option_type =? "put")%string then
      m <- np_mean_axis1 simulated_prices ;;
      Value (np_maximum0 (map (fun x => K - x) m))
    else Raised NameError
  else Raised NameError.

(** [discount_factor = np.exp(-rf * T)]. *)
Definition discount_factor (rf T : R) : R := exp (- rf * T).

(** [option_price = discount_factor * np.mean(payoff)]. *)
Definition option_price (rf T : R) (payoff : list R) : outcome R :=
  m <- np_mean payoff ;; Value (discount_factor rf T * m).

(** ** The notebook's inputs, its validation cell and the whole run *)

Module Inputs.
Record t : Type := make {
  S0 : R;               (* initial price of the underlying asset *)
  K : R;                (* strike *)
  T : R;                (* time to maturity, in years *)
  rf : R;               (* annual risk-free rate *)
  sigma : R;            (* annualised volatility *)
  n_simul : Z;          (* number of simulations *)
  dt : R;               (* time step *)
  option_type : string;
  option_nature : string
}.
End Inputs.

(** The variables the simulation cell leaves behind. *)
Module Globals.
Record t : Type := make {
  n_steps : Z;
  antithetic_random_walks : ndarray;
  simulated_prices : ndarray;
  payoff : list R;
  option_price : R
}.
End Globals.

(** [x in [...]] on strings. *)
Definition str_in (x : string) (l : list string) : bool :=
  existsb (String.eqb x) l.

(** The validation cell on inputs of the asserted types.  The [isinstance]
    assertions hold by typing: the numeric inputs are numbers and [n_simul]
    is an integer ([validation_cell] below has them on Python values).
    Nothing else is asserted about the numeric inputs. *)
Definition validation (c : Inputs.t) : outcome unit :=
  _ <- assert (str_in (Inputs.option_type c) ["call"; "put"]) ;;
  assert (str_in (Inputs.option_nature c) ["european"; "asiatic"]).

(** The validation cell followed by the simulation cell. *)
Definition monte_carlo (normal : nat -> nat -> R) (c : Inputs.t)
  : outcome Globals.t :=
  _ <- validation c ;;
  n <- n_steps (Inputs.T c) (Inputs.dt c) ;;
  rw <- random_walks normal (Inputs.n_simul c) n ;;
  let arw := antithetic_random_walks rw in
  coeff <- coeff_multiplicateur (Inputs.rf c) (Inputs.sigma c) (Inputs.dt c) arw ;;
  let prices := simulated_prices (Inputs.S0 c) coeff in
  p <- payoff (Inputs.option_nature c) (Inputs.option_type c) (Inputs.K c) prices ;;
  price <- option_price (Inputs.rf c) (Inputs.T c) p ;;
  Value (Globals.make n arw prices p price).

(** ** The Black-Scholes cell *)

(** The Gaussian kernel [exp(-t^2/2)]. *)
Definition gauss (t : R) : R := exp (- (t * t) / 2).

Lemma gauss_continuous : forall t, continuity_pt gauss t.
Proof. intro t. unfold gauss. reg. Qed.

Lemma gauss_integrable : forall a b, Riemann_integrable gauss a b.
Proof.
  intros a b. destruct (Rle_dec a b) as [h | h].
  - apply continuity_implies_RiemannInt; [exact h | intros; apply gauss_continuous].
  - apply RiemannInt_P1, continuity_implies_RiemannInt;
      [lra | intros; apply gauss_continuous].
Qed.

(** [scipy.stats.norm.cdf]: the distribution function of the standard normal
    law, written from its midpoint:
    [1/2 + 1/sqrt(2 pi) * integral of exp(-t^2/2) from 0 to x].  It takes the
    value [1/2] at [0] and its derivative is the standard normal density
    ([norm_cdf_0], [norm_cdf_derivative] below). *)
Definition norm_cdf (x : R) : R :=
  1 / 2 + / sqrt (2 * PI) * RiemannInt (gauss_integrable 0 x).

(** A numpy float as the Black-Scholes formula meets it: a real number
    (rounding is not modelled), a negative zero, an infinity or [nan].
    [Fin 0] is the positive zero, and an input equal to zero is read as the
    positive zero. *)
Inductive npfloat : Type :=
| Fin (x : R)
| NegZero
| PosInf
| NegInf
| NaN.

(** [np.log(x)]: [-inf] at zero and [nan] below, each with a warning. *)
Definition np_log (x : R) : npfloat :=
  if Rlt_dec 0 x then Fin (ln x)
  else if Req_dec_T x 0 then NegInf
  else NaN.

(** [np.sqrt(x)]: [nan] below zero, with a warning. *)
Definition np_sqrt (x : R) : npfloat :=
  if Rlt_dec x 0 then NaN else Fin (sqrt x).

(** [a + b] for a finite [b]. *)
Definition np_add (a : npfloat) (b : R) : npfloat :=
  match a with
  | Fin x => Fin (x + b)
  | NegZero => Fin b
  | PosInf => PosInf
  | NegInf => NegInf
  | NaN => NaN
  end.

(** [s * a] for a finite [s]: a zero product is negative when exactly one
    factor is. *)
Definition np_mul (s : R) (a : npfloat) : npfloat :=
  match a with
  | Fin y =>
      if Req_dec_T (s * y) 0 then
        if Rlt_dec s 0 then NegZero
        else if Rlt_dec y 0 then NegZero
        else Fin 0
      else Fin (s * y)
  | NegZero => if Rlt_dec s 0 then Fin 0 else NegZero
  | PosInf =>
      if Rlt_dec 0 s then PosInf else if Rlt_dec s 0 then NegInf else NaN
  | NegInf =>
      if Rlt_dec 0 s then NegInf else if Rlt_dec s 0 then PosInf else NaN
  | NaN => NaN
  end.

(** [a / d] on numpy floats: a division by zero gives an infinity of the
    sign of the operands, or [nan] for [0/0], with a warning and no
    exception.  The sign of a zero quotient is not tracked. *)
Definition np_div (a d : npfloat) : npfloat :=
  match d with
  | NaN => NaN
  | Fin y =>
      if Req_dec_T y 0 then
        match a with
        | Fin x => if Rlt_dec 0 x then PosInf else if Rlt_dec x 0 then NegInf else NaN
        | NegZero => NaN
        | PosInf => PosInf
        | NegInf => NegInf
        | NaN => NaN
        end
      else
        match a with
        | Fin x => Fin (x / y)
        | NegZero => Fin 0
        | PosInf => if Rlt_dec 0 y then PosInf else NegInf
        | NegInf => if Rlt_dec 0 y then NegInf else PosInf
        | NaN => NaN
        end
  | NegZero =>
      match a with
      | Fin x => if Rlt_dec 0 x then NegInf else if Rlt_dec x 0 then PosInf else NaN
      | NegZero => NaN
      | PosInf => NegInf
      | NegInf => PosInf
      | NaN => NaN
      end
  | PosInf | NegInf =>
      match a with
      | Fin _ | NegZero => Fin 0
      | _ => NaN
      end
  end.

(** [a - d] on numpy floats. *)
Definition np_sub (a d : npfloat) : npfloat :=
  match a, d with
  | NaN, _ | _, NaN => NaN
  | Fin x, Fin y => Fin (x - y)
  | Fin x, NegZero => Fin x
  | NegZero, Fin y => Fin (- y)
  | NegZero, NegZero => Fin 0
  | PosInf, PosInf | NegInf, NegInf => NaN
  | PosInf, _ => PosInf
  | NegInf, _ => NegInf
  | _, PosInf => NegInf
  | _, NegInf => PosInf
  end.

(** [-a]. *)
Definition np_neg (a : npfloat) : npfloat :=
  match a with
  | Fin x => Fin (- x)
  | NegZero => Fin 0
  | PosInf => NegInf
  | NegInf => PosInf
  | NaN => NaN
  end.

(** [norm.cdf] on a numpy float: [1] at [+inf], [0] at [-inf], and [nan]
    ([None]) at [nan]. *)
Definition norm_cdf_np (d : npfloat) : option R :=
  match d with
  | Fin x => Some (norm_cdf x)
  | NegZero => Some (norm_cdf 0)
  | PosInf => Some 1
  | NegInf => Some 0
  | NaN => None
  end.

(** [sigma * np.sqrt(T)], the denominator of [d1] and the shift to [d2]. *)
Definition bs_denominator (T sigma : R) : npfloat := np_mul sigma (np_sqrt T).

(** [d1 = (np.log(S0 / K) + (rf + 0.5 * sigma**2) * T)
          / (sigma * np.sqrt(T))], as numpy computes it. *)
Definition bs_d1 (S0 K T rf sigma : R) : npfloat :=
  np_div (np_add (np_log (S0 / K)) ((rf + 0.5 * sigma ^ 2) * T))
         (bs_denominator T sigma).

(** [d2 = d1 - sigma * np.sqrt(T)]. *)
Definition bs_d2 (S0 K T rf sigma : R) : npfloat :=
  np_sub (bs_d1 S0 K T rf sigma) (bs_denominator T sigma).

(** [black_scholes_option(S0, K, T, rf, sigma, option_type)].  The Python
    division [S0 / K] raises on a zero strike; [d1] and [d2] are computed
    before [option_type] is inspected.  An infinite [d1] or [d2] goes through
    [norm.cdf] and the returned price is finite; the outcome is
    [OutsideReals] only when the returned price is [nan]. *)
Definition black_scholes_option (S0 K T rf sigma : R) (option_type : string)
  : outcome R :=
  if Req_dec_T K 0 then Raised ZeroDivisionError
  else
    let d1 := bs_d1 S0 K T rf sigma in
    let d2 := bs_d2 S0 K T rf sigma in
    if (option_type =? "call")%string then
      match norm_cdf_np d1, norm_cdf_np d2 with
      | Some n1, Some n2 => Value (S0 * n1 - K * exp (- rf * T) * n2)
      | _, _ => OutsideReals
      end
    else if (option_type =? "put")%string then
      match norm_cdf_np (np_neg d2), norm_cdf_np (np_neg d1) with
      | Some m2, Some m1 => Value (K * exp (- rf * T) * m2 - S0 * m1)
      | _, _ => OutsideReals
      end
    else Raised ValueError.

(** The statements after the function definition: the formula is only used
    for European options. *)
Definition black_scholes_cell (c : Inputs.t) : outcome R :=
  if negb (Inputs.option_nature c =? "european")%string then Raised ValueError
  else black_scholes_option (Inputs.S0 c) (Inputs.K c) (Inputs.T c)
         (Inputs.rf c) (Inputs.sigma c) (Inputs.option_type c).

(** ** The specification's vocabulary *)

(** The per-step recursion of the discretised geometric Brownian motion,
    [S_{t+1} = S_t * exp((r - sigma^2/2) dt + sigma sqrt(dt) Z_t)], started at
    [S] and iterated once per draw; the path lists the prices after each
    step. *)
Fixpoint gbm_recursion (r sigma dt : R) (S : R) (Z : list R) : list R :=
  match Z with
  | [] => []
  | z :: Z' =>
      let S' := S * exp ((r - sigma ^ 2 / 2) * dt + sigma * sqrt dt * z) in
      S' :: gbm_recursion r sigma dt S' Z'
  end.

(** [big_sum f n] is the sum of [f t] over the time steps [t < n]. *)
Fixpoint big_sum (f : nat -> R) (n : nat) : R :=
  match n with
  | O => 0
  | S n' => big_sum f n' + f n'
  end.

(** The price at step [t] of a path. *)
Definition S_at (path : list R) (t : nat) : R := nth t path 0.

(** The terminal price of a path. *)
Definition S_final (path : list R) : R := S_at path (length path - 1).

(** The arithmetic mean of a vector over all of its indices. *)
Definition arithmetic_mean (v : list R) : R :=
  big_sum (S_at v) (length v) / INR (length v).

(** The four payoff formulas of the specification. *)
Definition european_call (K : R) (path : list R) : R := Rmax (S_final path - K) 0.
Definition european_put (K : R) (path : list R) : R := Rmax (K - S_final path) 0.
Definition asian_call (K : R) (path : list R) : R := Rmax (arithmetic_mean path - K) 0.
Definition asian_put (K : R) (path : list R) : R := Rmax (K - arithmetic_mean path) 0.

(** [n] is an integer nearest to [x]. *)
Definition nearest_integer (x : R) (n : Z) : Prop := Rabs (x - IZR n) <= 1 / 2.

(** The notebook's inputs with three simulations and two time steps. *)
Definition three_simulations : Inputs.t :=
  Inputs.make 100 90 (/ 2) (/ 50) (/ 5) 3 (/ 4) "call" "european".

(** Applying a function to the value of an outcome. *)
Definition outcome_map {A B : Type} (f : A -> B) (m : outcome A) : outcome B :=
  match m with
  | Value a => Value (f a)
  | Raised e => Raised e
  | OutsideReals => OutsideReals
  end.

(** Column [j] of a matrix, read row by row. *)
Definition column (j : nat) (a : ndarray) : list R :=
  map (fun r => nth j r 0) (rows a).

(** The path of an asset that grows at the rate [rf] without noise: its
    price after step [t] (counted from zero) is [S0 * exp(rf dt (t + 1))]. *)
Definition deterministic_path (S0 rf dt : R) (n : nat) : list R :=
  map (fun t => S0 * exp (rf * dt * INR (t + 1))) (seq 0 n).

(** The quantity of a path an option pays on: its terminal price for a
    European option, its arithmetic mean for an Asian one. *)
Definition underlying (option_nature : string) (path : list R) : R :=
  if (option_nature =? "european")%string then S_final path
  else arithmetic_mean path.

(** The simulation cell from the coefficient matrix on: prices, payoffs,
    discounted mean. *)
Definition price_from_coeff (S0 K T rf : R) (option_nature option_type : string)
    (coeff : ndarray) : outcome R :=
  p <- payoff option_nature option_type K (simulated_prices S0 coeff) ;;
  option_price rf T p.

(** ** The validation cell on Python values

    [Inputs.t] above holds inputs that already have the types the validation
    cell asserts.  The definitions below give the inputs as Python values
    and the cell assertion by assertion, in the order of the source. *)

(** A Python value, as far as the assertions tell values apart. *)
Inductive pyval : Type :=
| PyInt (n : Z)
| PyFloat (x : R)
| PyBool (b : bool)
| PyStr (s : string)
| PyOther.

(** [isinstance(v, (int, float))]; [bool] is a subclass of [int]. *)
Definition isinstance_int_float (v : pyval) : bool :=
  match v with
  | PyInt _ | PyFloat _ | PyBool _ => true
  | _ => false
  end.

(** [isinstance(v, int)]. *)
Definition isinstance_int (v : pyval) : bool :=
  match v with
  | PyInt _ | PyBool _ => true
  | _ => false
  end.

(** [v in l] for a list [l] of strings. *)
Definition py_in (v : pyval) (l : list string) : bool :=
  match v with
  | PyStr s => str_in s l
  | _ => false
  end.

Module RawInputs.
Record t : Type := make {
  S0 : pyval;
  K : pyval;
  T : pyval;
  rf : pyval;
  sigma : pyval;
  n_simul : pyval;
  dt : pyval;
  option_type : pyval;
  option_nature : pyval
}.
End RawInputs.

(** The nine assertions of the validation cell. *)
Definition validation_cell (r : RawInputs.t) : outcome unit :=
  _ <- assert (isinstance_int_float (RawInputs.S0 r)) ;;
  _ <- assert (isinstance_int_float (RawInputs.K r)) ;;
  _ <- assert (isinstance_int_float (RawInputs.T r)) ;;
  _ <- assert (isinstance_int_float (RawInputs.rf r)) ;;
  _ <- assert (isinstance_int_float (RawInputs.sigma r)) ;;
  _ <- assert (isinstance_int (RawInputs.n_simul r)) ;;
  _ <- assert (isinstance_int_float (RawInputs.dt r)) ;;
  _ <- assert (py_in (RawInputs.option_type r) ["call"; "put"]) ;;
  assert (py_in (RawInputs.option_nature r) ["european"; "asiatic"]).

(** The number, the integer and the text a Python value stands for. *)
Definition py_number (v : pyval) : R :=
  match v with
  | PyInt n => IZR n
  | PyFloat x => x
  | PyBool b => if b then 1 else 0
  | _ => 0
  end.

Definition py_integer (v : pyval) : Z :=
  match v with
  | PyInt n => n
  | PyBool b => if b then 1%Z else 0%Z
  | _ => 0%Z
  end.

Definition py_text (v : pyval) : string :=
  match v with
  | PyStr s => s
  | _ => ""
  end.

(** The inputs once the assertions have passed. *)
Definition typed (r : RawInputs.t) : Inputs.t :=
  Inputs.make (py_number (RawInputs.S0 r)) (py_number (RawInputs.K r))
    (py_number (RawInputs.T r)) (py_number (RawInputs.rf r))
    (py_number (RawInputs.sigma r)) (py_integer (RawInputs.n_simul r))
    (py_number (RawInputs.dt r)) (py_text (RawInputs.option_type r))
    (py_text (RawInputs.option_nature r)).

(** The validation cell followed by the simulation cell, on Python values;
    [monte_carlo] repeats the two assertions on the strings, which hold
    by then. *)
Definition notebook (normal : nat -> nat -> R) (r : RawInputs.t)
  : outcome Globals.t :=
  _ <- validation_cell r ;;
  monte_carlo normal (typed r).

(** ** The step count on doubles

    [n_steps] above reads the quotient [T / dt] as the exact quotient of two
    real numbers.  Python divides two doubles and rounds the quotient to a
    double before [int] truncates it, and the truncation can see the
    rounding: the definitions below compute the step count on doubles, with
    the division of the machine. *)

(** The real number a finite double stands for, [m * 2^e] with its sign;
    [0] for a zero, and by convention for an infinity or [nan]. *)
Definition SF2R (f : spec_float) : R :=
  match f with
  | S754_finite s m e =>
      let v := if (0 <=? e)%Z then IZR (Z.pos m * 2 ^ e)
               else IZR (Z.pos m) / IZR (2 ^ (- e)) in
      if s then - v else v
  | _ => 0
  end.

Definition double_value (x : float) : R := SF2R (Prim2SF x).

(** Neither an infinity nor [nan]. *)
Definition double_finite (x : float) : bool :=
  match Prim2SF x with
  | S754_zero _ | S754_finite _ _ _ => true
  | _ => false
  end.

(** [int(x)] on a double: the integer part, toward zero; [OverflowError] on
    an infinity and [ValueError] on [nan]. *)
Definition py_int_double (x : float) : outcome Z :=
  match Prim2SF x with
  | S754_zero _ => Value 0%Z
  | S754_finite s m e =>
      let a := if (0 <=? e)%Z then (Z.pos m * 2 ^ e)%Z
               else (Z.pos m / 2 ^ (- e))%Z in
      Value (if s then - a else a)%Z
  | S754_infinity _ => Raised OverflowError
  | S754_nan => Raised ValueError
  end.

(** [n_steps = int(T / dt)] on doubles: the Python division raises when
    [dt] is a zero of either sign; the quotient is the rounded quotient. *)
Definition n_steps_double (T dt : float) : outcome Z :=
  match Prim2SF dt with
  | S754_zero _ => Raised ZeroDivisionError
  | _ => py_int_double (T / dt)%float
  end.

(** ** The scraping notebook: tickers and the four result lists

    The notebook that scrapes the list of French stocks derives a ticker
    from the link of each company and appends to four lists.  The HTTP
    requests, the HTML parsing and the yfinance lookup are outside the
    model: a page is given by what the parser found on it, the volume cells
    already converted by [int] and the company links as pairs of a name and
    an [href], and the lookup by a function telling whether it succeeds.
    Python strings are read as strings of one-byte characters. *)

(** [s.replace(old, new)] for a non-empty [old]: the occurrences are
    replaced from the left, without overlap; [skip] counts the characters of
    a replaced occurrence still to be passed over. *)
Fixpoint py_replace_from (old new : string) (skip : nat) (s : string) : string :=
  match s with
  | EmptyString => EmptyString
  | String ch s' =>
      match skip with
      | S k => py_replace_from old new k s'
      | O =>
          if prefix old s
          then new ++ py_replace_from old new (String.length old - 1) s'
          else String ch (py_replace_from old new 0 s')
      end
  end.

Definition py_replace (old new s : string) : string :=
  py_replace_from old new 0 s.

(** [s.find(sub)]: the lowest index of [sub] in [s], [-1] when there is
    none. *)
Definition py_find (sub s : string) : Z :=
  match index 0 sub s with
  | Some i => Z.of_nat i
  | None => (-1)%Z
  end.

(** [s[start:stop]]: a negative index counts from the end, and both indices
    are clamped to the string. *)
Definition py_slice (s : string) (start stop : Z) : string :=
  let n := Z.of_nat (String.length s) in
  let clamp (i : Z) := if (i <? 0)%Z then Z.max (i + n) 0 else Z.min i n in
  substring (Z.to_nat (clamp start)) (Z.to_nat (clamp stop - clamp start)) s.

(** [ref = href.replace("-OTC", ""); pos = ref.find("P");
     ticker = ref[pos+1:-1] + ".PA"]. *)
Definition ticker_of_href (href : string) : string :=
  let ref := py_replace "-OTC" "" href in
  let pos := py_find "P" ref in
  py_slice ref (pos + 1) (-1) ++ ".PA".

(** The four lists the scraping loop fills. *)
Record scraped : Type := mk_scraped {
  list_name : list string;
  list_ticker : list string;
  list_secteur : list string;
  list_volume : list Z
}.

(** The body of the loop over [enumerate(entreprises)].  Inside [try], the
    lookup comes first and the four appends follow in order; when
    [list_volume_transition[counter]] raises [IndexError] the first three
    appends have been made, and the bare [except] swallows the exception. *)
Definition add_entreprise (lookup_succeeds : string -> bool) (sector : string)
    (list_volume_transition : list Z) (st : scraped) (counter : nat)
    (name href : string) : scraped :=
  let ticker := ticker_of_href href in
  if lookup_succeeds ticker then
    match nth_error list_volume_transition counter with
    | Some v =>
        {| list_name := list_name st ++ [name];
           list_ticker := list_ticker st ++ [ticker];
           list_secteur := list_secteur st ++ [sector];
           list_volume := list_volume st ++ [v] |}
    | None =>
        {| list_name := list_name st ++ [name];
           list_ticker := list_ticker st ++ [ticker];
           list_secteur := list_secteur st ++ [sector];
           list_volume := list_volume st |}
    end
  else st.

(** The loop over [enumerate(entreprises)], from index [counter] on. *)
Fixpoint add_entreprises (lookup_succeeds : string -> bool) (sector : string)
    (list_volume_transition : list Z) (counter : nat)
    (entreprises : list (string * string)) (st : scraped) : scraped :=
  match entreprises with
  | [] => st
  | (name, href) :: rest =>
      add_entreprises lookup_succeeds sector list_volume_transition (S counter)
        rest
        (add_entreprise lookup_succeeds sector list_volume_transition st
           counter name href)
  end.

(** What one page adds to the lists. *)
Definition scrape_page (lookup_succeeds : string -> bool) (sector : string)
    (list_volume_transition : list Z) (entreprises : list (string * string))
    (st : scraped) : scraped :=
  add_entreprises lookup_succeeds sector list_volume_transition 0 entreprises st.

(** The character [ch] occurs in [s]. *)
Definition occurs (ch : ascii) (s : string) : Prop :=
  In ch (list_ascii_of_string s).

(** The four lists have the same length, as building the data frame from
    them requires. *)
Definition aligned (st : scraped) : Prop :=
  length (list_ticker st) = length (list_name st) /\
  length (list_secteur st) = length (list_name st) /\
  length (list_volume st) = length (list_name st).

(** By how much the list of names is longer than the list of volumes. *)
Definition gap (st : scraped) : Z :=
  (Z.of_nat (length (list_name st)) - Z.of_nat (length (list_volume st)))%Z.

(** ** The standard normal distribution function *)

Lemma norm_cdf_0 : norm_cdf 0 = 1 / 2.
Proof. unfold norm_cdf. rewrite RiemannInt_P9. lra. Qed.

Lemma gauss_integral_derivative :
  forall x,
    derivable_pt_lim (fun t => RiemannInt (gauss_integrable 0 t)) x (gauss x).
Proof.
  intro x.
  assert (h : x - 1 <= x + 1) by lra.
  assert (C0 : forall t, x - 1 <= t <= x + 1 -> continuity_pt gauss t)
    by (intros; apply gauss_continuous).
  pose proof (RiemannInt_P28 h C0 (x := x) ltac:(lra)) as HP.
  apply (derivable_pt_lim_locally_ext
           (fun t => RiemannInt (gauss_integrable 0 (x - 1))
                     + primitive h (FTC_P1 h C0) t) _ x (x - 1) (x + 1));
    [lra | |].
  - intros t Ht. unfold primitive.
    destruct (Rle_dec (x - 1) t) as [r | r]; [| exfalso; lra].
    destruct (Rle_dec t (x + 1)) as [r0 | r0]; [| exfalso; lra].
    apply RiemannInt_P26.
  - replace (gauss x) with (0 + gauss x) by lra.
    apply (derivable_pt_lim_plus
             (fun _ => RiemannInt (gauss_integrable 0 (x - 1)))).
    + apply derivable_pt_lim_const.
    + exact HP.
Qed.

(** The derivative of the distribution function is the density
    [exp(-x^2/2) / sqrt(2 pi)]. *)
Lemma norm_cdf_derivative :
  forall x, derivable_pt_lim norm_cdf x (/ sqrt (2 * PI) * gauss x).
Proof.
  intro x. unfold norm_cdf.
  replace (/ sqrt (2 * PI) * gauss x) with (0 + / sqrt (2 * PI) * gauss x) by lra.
  apply (derivable_pt_lim_plus (fun _ => 1 / 2)
           (fun t => / sqrt (2 * PI) * RiemannInt (gauss_integrable 0 t))).
  - apply derivable_pt_lim_const.
  - apply (derivable_pt_lim_scal (fun t => RiemannInt (gauss_integrable 0 t))).
    apply gauss_integral_derivative.
Qed.

Lemma gauss_even : forall t, gauss (- t) = gauss t.
Proof. intro t. unfold gauss. f_equal. lra. Qed.

(** The kernel is even, so [x |-> int_0^x + int_0^{-x}] has a zero
    derivative everywhere; it vanishes at [0], hence everywhere. *)
Lemma gauss_integral_odd :
  forall x,
    RiemannInt (gauss_integrable 0 (- x)) = - RiemannInt (gauss_integrable 0 x).
Proof.
  set (I := fun t => RiemannInt (gauss_integrable 0 t)).
  set (F := fun t => I t + I (- t)).
  assert (D : forall t, derivable_pt_lim F t 0).
  { intro t. unfold F.
    replace 0 with (gauss t + gauss (- t) * - 1) by (rewrite gauss_even; lra).
    apply (derivable_pt_lim_plus I (fun t => I (- t))).
    - apply gauss_integral_derivative.
    - apply (derivable_pt_lim_comp (fun t => - t) I).
      + apply (derivable_pt_lim_opp id), derivable_pt_lim_id.
      + apply gauss_integral_derivative. }
  set (pr := fun t =>
               exist (fun l => derivable_pt_abs F t l) 0 (D t) : derivable_pt F t).
  assert (C : constant F) by (apply (null_derivative_1 F pr); intro; reflexivity).
  intro x. specialize (C x 0). unfold F, I in C.
  rewrite Ropp_0, RiemannInt_P9 in C. lra.
Qed.

(** [N(-x) = 1 - N(x)]. *)
Lemma norm_cdf_opp : forall x, norm_cdf (- x) = 1 - norm_cdf x.
Proof.
  intro x. unfold norm_cdf. rewrite gauss_integral_odd. lra.
Qed.

(** ** Truncation *)

Lemma py_int_nonneg : forall x, 0 <= x -> py_int x = Zfloor x.
Proof.
  intros x Hx. unfold py_int. destruct (Rle_dec 0 x); [reflexivity | contradiction].
Qed.

(** On a non-negative number [int] returns the integer [z] with
    [z <= x < z + 1]. *)
Lemma py_int_eq : forall x z, 0 <= x -> IZR z <= x < IZR z + 1 -> py_int x = z.
Proof.
  intros x z Hx Hz. rewrite py_int_nonneg by exact Hx. now apply Zfloor_eq.
Qed.

Lemma py_int_bound :
  forall x, 0 <= x -> (0 <= py_int x)%Z /\ IZR (py_int x) <= x < IZR (py_int x) + 1.
Proof.
  intros x Hx. rewrite py_int_nonneg by exact Hx. split.
  - apply (Zfloor_lub 0 x). exact Hx.
  - apply Zfloor_bound.
Qed.

(** [int(n/2)] on an integer [n] is the quotient truncated toward zero. *)
Lemma py_int_half : forall n : Z, py_int (IZR n / 2) = Z.quot n 2.
Proof.
  intro n. unfold py_int.
  pose proof (Z.quot_rem' n 2) as E.
  destruct (Rle_dec 0 (IZR n / 2)) as [H | H].
  - assert (Hn : (0 <= n)%Z) by (apply le_IZR; lra).
    pose proof (Z.rem_bound_pos n 2 Hn ltac:(lia)) as B.
    apply Zfloor_eq.
    assert (En : IZR n = 2 * IZR (Z.quot n 2) + IZR (Z.rem n 2)).
    { rewrite E at 1. rewrite plus_IZR, mult_IZR. reflexivity. }
    destruct B as [B1 B2]. apply IZR_le in B1.
    assert (B3 : IZR (Z.rem n 2) <= 1) by (apply IZR_le; lia).
    lra.
  - assert (Hn : (n < 0)%Z) by (apply lt_IZR; lra).
    pose proof (Z.rem_bound_pos_neg n 2 ltac:(lia) ltac:(lia)) as B.
    apply Zceil_eq.
    assert (En : IZR n = 2 * IZR (Z.quot n 2) + IZR (Z.rem n 2)).
    { rewrite E at 1. rewrite plus_IZR, mult_IZR. reflexivity. }
    destruct B as [B1 B2]. apply IZR_le in B2.
    assert (B3 : -1 <= IZR (Z.rem n 2)) by (apply IZR_le; lia).
    lra.
Qed.

(** ** Vectors, sums and running products *)

Lemma big_sum_shift :
  forall (x : R) (l : list R) (n : nat),
    big_sum (S_at (x :: l)) (S n) = x + big_sum (S_at l) n.
Proof.
  intros x l n. induction n as [| n IH].
  - cbn [big_sum]. unfold S_at. cbn [nth]. lra.
  - change (big_sum (S_at (x :: l)) (S (S n)))
      with (big_sum (S_at (x :: l)) (S n) + S_at (x :: l) (S n)).
    rewrite IH. cbn [big_sum].
    change (S_at (x :: l) (S n)) with (S_at l n). lra.
Qed.

Lemma fold_left_Rplus_big_sum :
  forall (l : list R) (a : R),
    fold_left Rplus l a = a + big_sum (S_at l) (length l).
Proof.
  induction l as [| x l IH]; intro a.
  - simpl. lra.
  - cbn [fold_left length]. rewrite IH, big_sum_shift. lra.
Qed.

Lemma np_sum_big_sum : forall l, np_sum l = big_sum (S_at l) (length l).
Proof.
  intro l. unfold np_sum. rewrite fold_left_Rplus_big_sum. lra.
Qed.

(** The mean numpy computes is the arithmetic mean over every index. *)
Lemma np_mean_nonempty :
  forall v, v <> [] -> np_mean v = Value (arithmetic_mean v).
Proof.
  intros v Hv. destruct v as [| x v]; [contradiction |].
  unfold np_mean, arithmetic_mean. now rewrite np_sum_big_sum.
Qed.

Lemma last_S_final : forall path, last path 0 = S_final path.
Proof.
  intro path. unfold S_final, S_at.
  induction path as [| x [| y l] IH]; try reflexivity.
  change (last (x :: y :: l) 0) with (last (y :: l) 0). rewrite IH.
  cbn [length]. replace (S (S (length l)) - 1)%nat with (S (length l)) by lia.
  replace (S (length l) - 1)%nat with (length l) by lia. reflexivity.
Qed.

Lemma means_well_shaped :
  forall (l : list (list R)) (n : nat),
    (1 <= n)%nat -> Forall (fun r => length r = n) l ->
    means l = Value (map arithmetic_mean l).
Proof.
  intros l n Hn Hl. induction Hl as [| r l Hr Hl IH]; [reflexivity |].
  cbn [means map]. rewrite np_mean_nonempty.
  - cbn [bind]. rewrite IH. reflexivity.
  - intros ->. simpl in Hr. lia.
Qed.

(** Scaling a running product is starting it from the scaled value. *)
Lemma cumprod_from_scale :
  forall (l : list R) (s a : R),
    map (Rmult s) (cumprod_from a l) = cumprod_from (s * a) l.
Proof.
  induction l as [| x l IH]; intros s a; [reflexivity |].
  cbn [cumprod_from map]. rewrite IH. now rewrite Rmult_assoc.
Qed.

Lemma cumprod_scale :
  forall (l : list R) (s : R), map (Rmult s) (cumprod l) = cumprod_from s l.
Proof.
  intros [| x l] s; [reflexivity |].
  cbn [cumprod cumprod_from map]. now rewrite cumprod_from_scale.
Qed.

Lemma gbm_recursion_cumprod_from :
  forall (r sigma dt : R) (Z : list R) (S : R),
    gbm_recursion r sigma dt S Z = cumprod_from S (map (step_factor r sigma dt) Z).
Proof.
  intros r sigma dt Z. induction Z as [| z Z IH]; intro S; [reflexivity |].
  cbn [gbm_recursion map cumprod_from]. rewrite IH. reflexivity.
Qed.

Lemma cumprod_from_length :
  forall l a, length (cumprod_from a l) = length l.
Proof.
  induction l as [| x l IH]; intro a; [reflexivity |].
  cbn [cumprod_from length]. now rewrite IH.
Qed.

Lemma cumprod_from_pos :
  forall l a, 0 < a -> Forall (fun x => 0 < x) l ->
    Forall (fun s => 0 < s) (cumprod_from a l).
Proof.
  induction l as [| x l IH]; intros a Ha Hl; [constructor |].
  inversion Hl as [| ? ? Hx Hl']; subst.
  assert (0 < a * x) by now apply Rmult_lt_0_compat.
  cbn [cumprod_from]. constructor; [assumption | now apply IH].
Qed.

Lemma step_factor_pos : forall rf sigma dt z, 0 < step_factor rf sigma dt z.
Proof. intros. apply exp_pos. Qed.

(** The rows of the price matrix, one per row of draws. *)
Lemma simulated_prices_rows :
  forall S0 rf sigma dt Z,
    rows (simulated_prices S0 (elementwise (step_factor rf sigma dt) Z))
    = map (fun z => cumprod_from S0 (map (step_factor rf sigma dt) z)) (rows Z).
Proof.
  intros. unfold simulated_prices, np_cumprod_axis1, elementwise. cbn [rows].
  rewrite !map_map. apply map_ext. intro z. apply cumprod_scale.
Qed.

Lemma coeff_multiplicateur_value :
  forall rf sigma dt Z, 0 <= dt ->
    coeff_multiplicateur rf sigma dt Z
    = Value (elementwise (step_factor rf sigma dt) Z).
Proof.
  intros. unfold coeff_multiplicateur. destruct (Rlt_dec dt 0); [lra | reflexivity].
Qed.

(** ** Shapes *)

Lemma np_random_normal_value :
  forall normal d0 d1, (0 <= d0)%Z -> (0 <= d1)%Z ->
    np_random_normal normal d0 d1
    = Value {| rows := map (fun i => map (normal i) (seq 0 (Z.to_nat d1)))
                           (seq 0 (Z.to_nat d0));
               ncols := Z.to_nat d1 |}.
Proof.
  intros normal d0 d1 H0 H1. unfold np_random_normal.
  destruct (Z.ltb_spec d0 0); [lia |]. destruct (Z.ltb_spec d1 0); [lia |].
  reflexivity.
Qed.

Lemma np_random_normal_shape :
  forall normal d0 d1 a, np_random_normal normal d0 d1 = Value a ->
    (0 <= d0)%Z /\ (0 <= d1)%Z /\
    nrows a = Z.to_nat d0 /\ ncols a = Z.to_nat d1 /\ well_shaped a.
Proof.
  intros normal d0 d1 a H. unfold np_random_normal in H.
  destruct (Z.ltb_spec d0 0); [discriminate |].
  destruct (Z.ltb_spec d1 0); [discriminate |].
  injection H as <-. unfold nrows, well_shaped. cbn [rows ncols].
  repeat split; try assumption.
  - now rewrite length_map, length_seq.
  - apply Forall_forall. intros r Hr. apply in_map_iff in Hr.
    destruct Hr as [i [<- _]]. now rewrite length_map, length_seq.
Qed.

Lemma antithetic_shape :
  forall rw, well_shaped rw ->
    nrows (antithetic_random_walks rw) = (2 * nrows rw)%nat /\
    ncols (antithetic_random_walks rw) = ncols rw /\
    well_shaped (antithetic_random_walks rw).
Proof.
  intros rw Hw. unfold antithetic_random_walks, np_vstack, elementwise, nrows,
    well_shaped in *. cbn [rows ncols]. repeat split.
  - rewrite length_app, length_map. lia.
  - apply Forall_app. split; [exact Hw |].
    apply Forall_forall. intros r Hr. apply in_map_iff in Hr.
    destruct Hr as [r' [<- Hr']]. rewrite length_map.
    now apply (proj1 (Forall_forall _ _) Hw).
Qed.

Lemma simulated_prices_shape :
  forall S0 rf sigma dt Z, well_shaped Z ->
    let prices := simulated_prices S0 (elementwise (step_factor rf sigma dt) Z) in
    nrows prices = nrows Z /\ ncols prices = ncols Z /\ well_shaped prices.
Proof.
  intros S0 rf sigma dt Z Hw prices. unfold nrows, well_shaped. subst prices.
  rewrite simulated_prices_rows. repeat split.
  - now rewrite length_map.
  - apply Forall_forall. intros r Hr. apply in_map_iff in Hr.
    destruct Hr as [z [<- Hz]]. rewrite cumprod_from_length, length_map.
    now apply (proj1 (Forall_forall _ _) Hw).
Qed.

(** ** Payoffs *)

Lemma last_column_value :
  forall a, (1 <= ncols a)%nat -> last_column a = Value (map S_final (rows a)).
Proof.
  intros a Ha. unfold last_column.
  destruct (Nat.eqb_spec (ncols a) 0) as [E | _]; [lia |].
  f_equal. apply map_ext. intro r. apply last_S_final.
Qed.

Lemma np_maximum0_nonneg : forall v, Forall (fun x => 0 <= x) (np_maximum0 v).
Proof.
  intro v. unfold np_maximum0. apply Forall_forall. intros x Hx.
  apply in_map_iff in Hx. destruct Hx as [y [<- _]]. apply Rmax_r.
Qed.

(** The four branches of the [if]/[elif] chain on a matrix with at least one
    time step. *)
Lemma payoff_by_case :
  forall (K : R) (prices : ndarray),
    well_shaped prices -> (1 <= ncols prices)%nat ->
    payoff "european" "call" K prices
      = Value (map (european_call K) (rows prices)) /\
    payoff "european" "put" K prices
      = Value (map (european_put K) (rows prices)) /\
    payoff "asiatic" "call" K prices
      = Value (map (asian_call K) (rows prices)) /\
    payoff "asiatic" "put" K prices
      = Value (map (asian_put K) (rows prices)).
Proof.
  intros K prices Hw Hn.
  assert (Hm : np_mean_axis1 prices = Value (map arithmetic_mean (rows prices)))
    by (apply (means_well_shaped _ (ncols prices)); assumption).
  repeat split; unfold payoff; cbn [String.eqb Ascii.eqb Bool.eqb];
    rewrite ?last_column_value, ?Hm by exact Hn; cbn [bind];
    unfold np_maximum0; now rewrite !map_map.
Qed.

(** C1: on a price matrix with at least one time step, the payoff vector is,
    path by path, [max(S_final - K, 0)] for a European call,
    [max(K - S_final, 0)] for a European put, [max(mean - K, 0)] for an Asian
    call and [max(K - mean, 0)] for an Asian put, where [S_final] is the entry
    of the last column and [mean] is the sum over every time step divided by
    their number; a European payoff is the same on two matrices that agree on
    the last column. *)
Theorem payoff_formulas :
  forall (K : R) (prices : ndarray),
    well_shaped prices -> (1 <= ncols prices)%nat ->
    payoff "european" "call" K prices
      = Value (map (european_call K) (rows prices)) /\
    payoff "european" "put" K prices
      = Value (map (european_put K) (rows prices)) /\
    payoff "asiatic" "call" K prices
      = Value (map (asian_call K) (rows prices)) /\
    payoff "asiatic" "put" K prices
      = Value (map (asian_put K) (rows prices)) /\
    (forall (prices' : ndarray) (option_type : string),
        (1 <= ncols prices')%nat ->
        map S_final (rows prices') = map S_final (rows prices) ->
        payoff "european" option_type K prices'
        = payoff "european" option_type K prices).
Proof.
  intros K prices Hw Hn.
  destruct (payoff_by_case K prices Hw Hn) as [H1 [H2 [H3 H4]]].
  repeat split; try assumption.
  intros prices' option_type Hn' E. unfold payoff.
  cbn [String.eqb Ascii.eqb Bool.eqb].
  rewrite !last_column_value by assumption. now rewrite E.
Qed.

Lemma payoff_formulas_witness :
  let prices := {| rows := [[100; 110; 120]; [100; 90; 80]]; ncols := 3 |} in
  payoff "european" "call" 90 prices
    = Value (map (european_call 90) (rows prices)) /\
  payoff "asiatic" "put" 90 prices
    = Value (map (asian_put 90) (rows prices)).
Proof.
  intro prices.
  assert (Hw : well_shaped prices) by (repeat constructor).
  assert (Hn : (1 <= ncols prices)%nat) by (simpl; lia).
  destruct (payoff_formulas 90 prices Hw Hn) as [H1 [_ [_ [H4 _]]]].
  split; [exact H1 | exact H4].
Defined.

(** C9: whenever the payoff vector is computed, in any of the four
    combinations of option nature and type, each of its elements is
    non-negative. *)
Theorem payoff_nonnegative :
  forall (option_nature option_type : string) (K : R) (prices : ndarray)
         (p : list R),
    payoff option_nature option_type K prices = Value p ->
    Forall (fun x => 0 <= x) p.
Proof.
  intros option_nature option_type K prices p H. unfold payoff in H.
  repeat match type of H with
  | (if ?b then _ else _) = _ => destruct b
  | bind ?m _ = _ => destruct m; cbn [bind] in H
  end; try discriminate; injection H as <-; apply np_maximum0_nonneg.
Qed.

Lemma payoff_nonnegative_witness :
  let prices := {| rows := [[100; 110; 120]; [100; 90; 80]]; ncols := 3 |} in
  payoff "european" "call" 90 prices
    = Value (map (european_call 90) (rows prices)) /\
  Forall (fun x => 0 <= x) (map (european_call 90) (rows prices)).
Proof.
  intro prices.
  assert (H : payoff "european" "call" 90 prices
              = Value (map (european_call 90) (rows prices))).
  { unfold payoff. cbn [String.eqb Ascii.eqb Bool.eqb].
    rewrite last_column_value by (simpl; lia). cbn [bind].
    unfold np_maximum0. now rewrite !map_map. }
  split; [exact H | exact (payoff_nonnegative _ _ _ _ _ H)].
Defined.

(** ** Discounting *)

(** C4: the option price is [exp(-rf T)] times the arithmetic mean of the
    payoff vector; on an empty payoff vector the mean, and with it the price,
    is numpy's [nan]. *)
Theorem option_price_discounted_mean :
  forall (rf T : R) (p : list R),
    option_price rf T p =
    match p with
    | [] => OutsideReals
    | _ => Value (exp (- (rf * T)) * arithmetic_mean p)
    end.
Proof.
  intros rf T p. unfold option_price, discount_factor.
  destruct p as [| x p]; [reflexivity |].
  rewrite np_mean_nonempty by discriminate. cbn [bind].
  now replace (- rf * T) with (- (rf * T)) by lra.
Qed.

(** ** Price paths *)

(** C2: for a non-negative time step, the vectorised construction
    [S0 * cumprod(exp(...), axis=1)] yields, row by row, exactly the path of
    the per-step recursion [S_{t+1} = S_t * exp(...)] started at [S0] and
    iterated once per draw. *)
Theorem vectorized_paths_are_gbm_recursion :
  forall (S0 rf sigma dt : R) (Z : ndarray),
    0 <= dt ->
    exists coeff : ndarray,
      coeff_multiplicateur rf sigma dt Z = Value coeff /\
      rows (simulated_prices S0 coeff)
      = map (gbm_recursion rf sigma dt S0) (rows Z).
Proof.
  intros S0 rf sigma dt Z Hdt.
  exists (elementwise (step_factor rf sigma dt) Z). split.
  - now apply coeff_multiplicateur_value.
  - rewrite simulated_prices_rows. apply map_ext. intro z.
    symmetry. apply gbm_recursion_cumprod_from.
Qed.

Lemma vectorized_paths_are_gbm_recursion_witness :
  exists coeff : ndarray,
    coeff_multiplicateur (/ 50) (/ 5) (/ 4)
      {| rows := [[1; -1; 0]; [-1; 1; 0]]; ncols := 3 |} = Value coeff /\
    rows (simulated_prices 100 coeff)
    = map (gbm_recursion (/ 50) (/ 5) (/ 4) 100) [[1; -1; 0]; [-1; 1; 0]].
Proof.
  apply (vectorized_paths_are_gbm_recursion 100 (/ 50) (/ 5) (/ 4)
           {| rows := [[1; -1; 0]; [-1; 1; 0]]; ncols := 3 |}).
  lra.
Defined.

(** C10: with a positive initial price and a non-negative time step, every
    entry of every simulated price path is strictly positive. *)
Theorem simulated_prices_positive :
  forall (S0 rf sigma dt : R) (Z : ndarray),
    0 < S0 -> 0 <= dt ->
    exists coeff : ndarray,
      coeff_multiplicateur rf sigma dt Z = Value coeff /\
      Forall (Forall (fun s => 0 < s)) (rows (simulated_prices S0 coeff)).
Proof.
  intros S0 rf sigma dt Z HS Hdt.
  exists (elementwise (step_factor rf sigma dt) Z). split.
  - now apply coeff_multiplicateur_value.
  - rewrite simulated_prices_rows. apply Forall_forall. intros path Hp.
    apply in_map_iff in Hp. destruct Hp as [z [<- _]].
    apply cumprod_from_pos; [exact HS |].
    apply Forall_forall. intros f Hf. apply in_map_iff in Hf.
    destruct Hf as [x [<- _]]. apply step_factor_pos.
Qed.

Lemma simulated_prices_positive_witness :
  exists coeff : ndarray,
    coeff_multiplicateur (/ 50) (/ 5) (/ 4)
      {| rows := [[1; -1; 0]; [-1; 1; 0]]; ncols := 3 |} = Value coeff /\
    Forall (Forall (fun s => 0 < s)) (rows (simulated_prices 100 coeff)).
Proof.
  apply (simulated_prices_positive 100 (/ 50) (/ 5) (/ 4)
           {| rows := [[1; -1; 0]; [-1; 1; 0]]; ncols := 3 |}); lra.
Defined.

(** ** Antithetic variates *)

Lemma random_walks_value :
  forall normal n_simul n, (0 <= n_simul)%Z -> (0 <= n)%Z ->
    random_walks normal n_simul n
    = Value {| rows := map (fun i => map (normal i) (seq 0 (Z.to_nat n)))
                           (seq 0 (Z.to_nat (Z.quot n_simul 2)));
               ncols := Z.to_nat n |}.
Proof.
  intros normal n_simul n Hs Hn. unfold random_walks. rewrite py_int_half.
  apply np_random_normal_value; [| exact Hn].
  apply Z.quot_pos; lia.
Qed.

(** In the stacked matrix, row [i + h] is the negation of row [i], where [h]
    is the number of rows that were drawn. *)
Lemma antithetic_rows :
  forall rw i row,
    nth_error (rows rw) i = Some row ->
    nth_error (rows (antithetic_random_walks rw)) i = Some row /\
    nth_error (rows (antithetic_random_walks rw)) (i + nrows rw)
    = Some (map Ropp row).
Proof.
  intros rw i row H. unfold antithetic_random_walks, np_vstack, elementwise, nrows.
  cbn [rows]. split.
  - rewrite nth_error_app1; [exact H |]. apply nth_error_Some. now rewrite H.
  - rewrite nth_error_app2 by lia.
    replace (i + length (rows rw) - length (rows rw))%nat with i by lia.
    now rewrite nth_error_map, H.
Qed.

(** C3: for an even number of simulations, the generated matrix has
    [n_simul] rows, and for every [i] below [n_simul / 2] its row
    [i + n_simul / 2] is the element-wise negation of its row [i]. *)
Theorem antithetic_pairing :
  forall (normal : nat -> nat -> R) (n_simul n : Z),
    (0 <= n_simul)%Z -> Z.even n_simul = true -> (0 <= n)%Z ->
    exists rw : ndarray,
      random_walks normal n_simul n = Value rw /\
      nrows (antithetic_random_walks rw) = Z.to_nat n_simul /\
      forall i : nat, (i < Z.to_nat (n_simul / 2))%nat ->
        exists row : list R,
          nth_error (rows (antithetic_random_walks rw)) i = Some row /\
          nth_error (rows (antithetic_random_walks rw))
                    (i + Z.to_nat (n_simul / 2))
          = Some (map Ropp row).
Proof.
  intros normal n_simul n Hs He Hn.
  assert (Hq : Z.quot n_simul 2 = (n_simul / 2)%Z) by (apply Z.quot_div_nonneg; lia).
  assert (H2 : n_simul = (2 * (n_simul / 2))%Z).
  { apply Z.even_spec in He. destruct He as [k ->].
    now rewrite Z.mul_comm, Z.div_mul, Z.mul_comm by lia. }
  eexists. split; [apply random_walks_value; assumption |].
  match goal with |- context [antithetic_random_walks ?a] => set (rw := a) end.
  assert (Hr : nrows rw = Z.to_nat (n_simul / 2)).
  { unfold nrows, rw. cbn [rows]. now rewrite length_map, length_seq, Hq. }
  split.
  - unfold antithetic_random_walks, np_vstack, elementwise, nrows in *.
    cbn [rows] in *. rewrite length_app, length_map, Hr. lia.
  - intros i Hi. rewrite <- Hr in *.
    destruct (nth_error (rows rw) i) as [row |] eqn:E.
    + exists row. now apply antithetic_rows.
    + apply nth_error_None in E. unfold nrows in Hi. lia.
Qed.

Lemma antithetic_pairing_witness :
  exists rw : ndarray,
    random_walks (fun i j => INR i - INR j) 4 3 = Value rw /\
    nrows (antithetic_random_walks rw) = Z.to_nat 4 /\
    forall i : nat, (i < Z.to_nat (4 / 2))%nat ->
      exists row : list R,
        nth_error (rows (antithetic_random_walks rw)) i = Some row /\
        nth_error (rows (antithetic_random_walks rw)) (i + Z.to_nat (4 / 2))
        = Some (map Ropp row).
Proof.
  apply (antithetic_pairing (fun i j => INR i - INR j) 4 3);
    [lia | reflexivity | lia].
Defined.

(** ** The Black-Scholes formula *)

Lemma str_in_call_put :
  forall x, str_in x ["call"; "put"] = true <-> x = "call" \/ x = "put".
Proof.
  intro x. unfold str_in. cbn [existsb].
  now rewrite orb_false_r, orb_true_iff, !String.eqb_eq.
Qed.

Lemma str_in_european_asiatic :
  forall x,
    str_in x ["european"; "asiatic"] = true <-> x = "european" \/ x = "asiatic".
Proof.
  intro x. unfold str_in. cbn [existsb].
  now rewrite orb_false_r, orb_true_iff, !String.eqb_eq.
Qed.

(** On a valid configuration the denominator, [d1] and [d2] are real
    numbers. *)
Lemma bs_denominator_valid :
  forall T sigma, 0 < T -> sigma <> 0 ->
    bs_denominator T sigma = Fin (sigma * sqrt T) /\ sigma * sqrt T <> 0.
Proof.
  intros T sigma HT Hs. unfold bs_denominator, np_sqrt, np_mul.
  assert (0 < sqrt T) by now apply sqrt_lt_R0.
  assert (Hne : sigma * sqrt T <> 0) by (apply Rmult_integral_contrapositive; lra).
  destruct (Rlt_dec T 0); [lra |].
  destruct (Req_dec_T (sigma * sqrt T) 0); [contradiction |]. now split.
Qed.

Lemma bs_d1_valid :
  forall S0 K T rf sigma, 0 < S0 / K -> 0 < T -> sigma <> 0 ->
    bs_d1 S0 K T rf sigma
    = Fin ((ln (S0 / K) + (rf + 0.5 * sigma ^ 2) * T) / (sigma * sqrt T)).
Proof.
  intros S0 K T rf sigma Hx HT Hs. unfold bs_d1.
  destruct (bs_denominator_valid T sigma HT Hs) as [-> Hne].
  unfold np_log. destruct (Rlt_dec 0 (S0 / K)); [| contradiction].
  cbn [np_add np_div]. destruct (Req_dec_T (sigma * sqrt T) 0); [contradiction |].
  reflexivity.
Qed.

Lemma bs_d2_valid :
  forall S0 K T rf sigma, 0 < S0 / K -> 0 < T -> sigma <> 0 ->
    bs_d2 S0 K T rf sigma
    = Fin ((ln (S0 / K) + (rf + 0.5 * sigma ^ 2) * T) / (sigma * sqrt T)
           - sigma * sqrt T).
Proof.
  intros S0 K T rf sigma Hx HT Hs. unfold bs_d2.
  rewrite bs_d1_valid by assumption.
  destruct (bs_denominator_valid T sigma HT Hs) as [-> _]. reflexivity.
Qed.

(** With a negative maturity the square root, and with it [d1] and [d2],
    is [nan]. *)
Lemma bs_negative_maturity :
  forall S0 K T rf sigma, T < 0 ->
    bs_d1 S0 K T rf sigma = NaN /\ bs_d2 S0 K T rf sigma = NaN.
Proof.
  intros S0 K T rf sigma HT.
  assert (E : bs_denominator T sigma = NaN).
  { unfold bs_denominator, np_sqrt. destruct (Rlt_dec T 0); [reflexivity | lra]. }
  unfold bs_d2, bs_d1. rewrite E. cbn [np_div np_sub]. split; reflexivity.
Qed.

(** With [sigma >= 0], [T >= 0] and [sigma * sqrt(T) = 0] the denominator is
    the positive zero and [d1], [d2] are the infinity of the sign of the
    numerator, or [nan] when the numerator is zero. *)
Lemma bs_zero_denominator :
  forall S0 K T rf sigma,
    0 < S0 / K -> 0 <= sigma -> 0 <= T -> sigma * sqrt T = 0 ->
    let a := ln (S0 / K) + (rf + 0.5 * sigma ^ 2) * T in
    (0 < a -> bs_d1 S0 K T rf sigma = PosInf /\ bs_d2 S0 K T rf sigma = PosInf) /\
    (a < 0 -> bs_d1 S0 K T rf sigma = NegInf /\ bs_d2 S0 K T rf sigma = NegInf) /\
    (a = 0 -> bs_d1 S0 K T rf sigma = NaN /\ bs_d2 S0 K T rf sigma = NaN).
Proof.
  intros S0 K T rf sigma Hx Hs HT Hz a.
  assert (E : bs_denominator T sigma = Fin 0).
  { unfold bs_denominator, np_sqrt, np_mul.
    pose proof (sqrt_pos T).
    destruct (Rlt_dec T 0); [lra |].
    destruct (Req_dec_T (sigma * sqrt T) 0); [| contradiction].
    destruct (Rlt_dec sigma 0); [lra |].
    destruct (Rlt_dec (sqrt T) 0); [lra | reflexivity]. }
  assert (D : bs_d1 S0 K T rf sigma
              = if Rlt_dec 0 a then PosInf
                else if Rlt_dec a 0 then NegInf else NaN).
  { unfold bs_d1. rewrite E. unfold np_log.
    destruct (Rlt_dec 0 (S0 / K)); [| contradiction].
    cbn [np_add np_div]. destruct (Req_dec_T 0 0); [reflexivity | contradiction]. }
  unfold bs_d2. rewrite D, E.
  split; [| split]; intro Ha;
    destruct (Rlt_dec 0 a); try lra; destruct (Rlt_dec a 0); try lra;
    split; reflexivity.
Qed.

(** The function raises only on a zero strike or an unknown option type. *)
Lemma black_scholes_option_raises :
  forall S0 K T rf sigma option_type e,
    black_scholes_option S0 K T rf sigma option_type = Raised e ->
    (K = 0 /\ e = ZeroDivisionError) \/
    (str_in option_type ["call"; "put"] = false /\ e = ValueError).
Proof.
  intros S0 K T rf sigma option_type e H. unfold black_scholes_option in H.
  destruct (Req_dec_T K 0) as [HK | HK].
  - left. split; [exact HK | congruence].
  - right. unfold str_in. cbn [existsb].
    destruct (option_type =? "call")%string.
    + destruct (norm_cdf_np (bs_d1 S0 K T rf sigma));
        try destruct (norm_cdf_np (bs_d2 S0 K T rf sigma)); discriminate.
    + destruct (option_type =? "put")%string.
      * destruct (norm_cdf_np (np_neg (bs_d2 S0 K T rf sigma)));
          try destruct (norm_cdf_np (np_neg (bs_d1 S0 K T rf sigma)));
          discriminate.
      * split; [reflexivity | congruence].
Qed.

Lemma black_scholes_option_zero_strike :
  forall S0 K T rf sigma option_type,
    K = 0 ->
    black_scholes_option S0 K T rf sigma option_type = Raised ZeroDivisionError.
Proof.
  intros S0 K T rf sigma option_type HK. unfold black_scholes_option.
  destruct (Req_dec_T K 0); [reflexivity | contradiction].
Qed.

Lemma black_scholes_option_unknown_type :
  forall S0 K T rf sigma option_type,
    K <> 0 -> str_in option_type ["call"; "put"] = false ->
    black_scholes_option S0 K T rf sigma option_type = Raised ValueError.
Proof.
  intros S0 K T rf sigma option_type HK Hty. unfold black_scholes_option.
  destruct (Req_dec_T K 0); [contradiction |].
  unfold str_in in Hty. cbn [existsb] in Hty.
  rewrite orb_false_r in Hty. apply orb_false_iff in Hty.
  destruct Hty as [-> ->]. reflexivity.
Qed.

(** The prices the function returns when the denominator of [d1] is the
    positive zero: the limit of the formula, with [N] read as 1 or 0. *)
Lemma black_scholes_zero_denominator :
  forall S0 K T rf sigma,
    K <> 0 -> 0 < S0 / K -> 0 <= sigma -> 0 <= T -> sigma * sqrt T = 0 ->
    let a := ln (S0 / K) + (rf + 0.5 * sigma ^ 2) * T in
    (0 < a ->
     black_scholes_option S0 K T rf sigma "call"
     = Value (S0 - K * exp (- rf * T)) /\
     black_scholes_option S0 K T rf sigma "put" = Value 0) /\
    (a < 0 ->
     black_scholes_option S0 K T rf sigma "call" = Value 0 /\
     black_scholes_option S0 K T rf sigma "put"
     = Value (K * exp (- rf * T) - S0)) /\
    (a = 0 ->
     black_scholes_option S0 K T rf sigma "call" = OutsideReals /\
     black_scholes_option S0 K T rf sigma "put" = OutsideReals).
Proof.
  intros S0 K T rf sigma HK Hx Hs HT Hz a.
  destruct (bs_zero_denominator S0 K T rf sigma Hx Hs HT Hz) as [Hp [Hn H0]].
  fold a in Hp, Hn, H0. unfold black_scholes_option.
  destruct (Req_dec_T K 0); [contradiction |].
  cbn [String.eqb Ascii.eqb Bool.eqb].
  split; [| split]; intro Ha.
  - destruct (Hp Ha) as [-> ->]. cbn [np_neg norm_cdf_np].
    split; f_equal; ring.
  - destruct (Hn Ha) as [-> ->]. cbn [np_neg norm_cdf_np].
    split; f_equal; ring.
  - destruct (H0 Ha) as [-> ->]. split; reflexivity.
Qed.

Lemma black_scholes_negative_maturity :
  forall S0 K T rf sigma option_type,
    K <> 0 -> str_in option_type ["call"; "put"] = true -> T < 0 ->
    black_scholes_option S0 K T rf sigma option_type = OutsideReals.
Proof.
  intros S0 K T rf sigma option_type HK Hty HT.
  destruct (bs_negative_maturity S0 K T rf sigma HT) as [E1 E2].
  unfold black_scholes_option. destruct (Req_dec_T K 0); [contradiction |].
  rewrite E1, E2. apply str_in_call_put in Hty.
  destruct Hty as [-> | ->]; reflexivity.
Qed.

(** C8: on a valid configuration the call price and the put price are both
    computed and their difference is [S0 - K exp(-rf T)]. *)
Theorem put_call_parity :
  forall (S0 K T rf sigma : R),
    0 < S0 -> 0 < K -> 0 < T -> 0 < sigma ->
    exists call put : R,
      black_scholes_option S0 K T rf sigma "call" = Value call /\
      black_scholes_option S0 K T rf sigma "put" = Value put /\
      call - put = S0 - K * exp (- rf * T).
Proof.
  intros S0 K T rf sigma HS HK HT Hs.
  assert (Hx : 0 < S0 / K) by now apply Rdiv_lt_0_compat.
  unfold black_scholes_option.
  destruct (Req_dec_T K 0) as [E | _]; [lra |].
  rewrite bs_d1_valid, bs_d2_valid by (try assumption; lra).
  cbn [np_neg norm_cdf_np String.eqb Ascii.eqb Bool.eqb].
  do 2 eexists. split; [reflexivity |]. split; [reflexivity |].
  rewrite !norm_cdf_opp. ring.
Qed.

Lemma put_call_parity_witness :
  exists call put : R,
    black_scholes_option 100 90 (/ 2) (/ 50) (/ 5) "call" = Value call /\
    black_scholes_option 100 90 (/ 2) (/ 50) (/ 5) "put" = Value put /\
    call - put = 100 - 90 * exp (- / 50 * / 2).
Proof.
  apply (put_call_parity 100 90 (/ 2) (/ 50) (/ 5)); lra.
Defined.

(** C7, as the code has it: [black_scholes_option] does not check [sigma] or
    [T].  It raises [ZeroDivisionError] exactly when the strike is zero and
    [ValueError] exactly when the strike is not zero and the option type is
    neither ["call"] nor ["put"], and nothing else; so a call with
    [sigma <= 0] or [T <= 0] raises nothing.  With [T < 0] it returns [nan].
    With [sigma >= 0], [T >= 0] and [sigma * sqrt(T) = 0] (a zero volatility
    or a zero maturity) the division by zero gives an infinite [d1] and the
    function returns the price with [N] read as 1 or 0: [S0 - K exp(-rf T)]
    for the call and [0] for the put when
    [ln(S0/K) + (rf + sigma^2/2) T > 0], [0] for the call and
    [K exp(-rf T) - S0] for the put when it is negative, and [nan] when it
    is zero. *)
Theorem black_scholes_no_domain_check :
  forall (S0 K T rf sigma : R),
    (forall option_type : string,
        (black_scholes_option S0 K T rf sigma option_type
         = Raised ZeroDivisionError <-> K = 0) /\
        (black_scholes_option S0 K T rf sigma option_type
         = Raised ValueError <->
         K <> 0 /\ str_in option_type ["call"; "put"] = false) /\
        (forall e,
            black_scholes_option S0 K T rf sigma option_type = Raised e ->
            e = ZeroDivisionError \/ e = ValueError) /\
        (K <> 0 -> str_in option_type ["call"; "put"] = true ->
         sigma <= 0 \/ T <= 0 ->
         forall e, black_scholes_option S0 K T rf sigma option_type <> Raised e) /\
        (K <> 0 -> str_in option_type ["call"; "put"] = true -> T < 0 ->
         black_scholes_option S0 K T rf sigma option_type = OutsideReals)) /\
    (K <> 0 -> 0 < S0 / K -> 0 <= sigma -> 0 <= T -> sigma * sqrt T = 0 ->
     let a := ln (S0 / K) + (rf + 0.5 * sigma ^ 2) * T in
     (0 < a ->
      black_scholes_option S0 K T rf sigma "call"
      = Value (S0 - K * exp (- rf * T)) /\
      black_scholes_option S0 K T rf sigma "put" = Value 0) /\
     (a < 0 ->
      black_scholes_option S0 K T rf sigma "call" = Value 0 /\
      black_scholes_option S0 K T rf sigma "put"
      = Value (K * exp (- rf * T) - S0)) /\
     (a = 0 ->
      black_scholes_option S0 K T rf sigma "call" = OutsideReals /\
      black_scholes_option S0 K T rf sigma "put" = OutsideReals)).
Proof.
  intros S0 K T rf sigma. split.
  - intro option_type. split; [| split; [| split; [| split]]].
    + split; [| apply black_scholes_option_zero_strike]. intro H.
      apply black_scholes_option_raises in H.
      destruct H as [[H _] | [_ H]]; [exact H | discriminate].
    + split; [| intros [HK Hty]; now apply black_scholes_option_unknown_type].
      intro H. destruct (Req_dec_T K 0) as [HK | HK].
      * rewrite (black_scholes_option_zero_strike _ _ _ _ _ _ HK) in H.
        discriminate.
      * split; [exact HK |]. apply black_scholes_option_raises in H.
        destruct H as [[H _] | [H _]]; [contradiction | exact H].
    + intros e H. apply black_scholes_option_raises in H.
      destruct H as [[_ ->] | [_ ->]]; [now left | now right].
    + intros HK Hty _ e H. apply black_scholes_option_raises in H.
      destruct H as [[H _] | [H _]]; [contradiction | congruence].
    + apply black_scholes_negative_maturity.
  - apply black_scholes_zero_denominator.
Qed.

Lemma ln_ratio_pos : 0 < ln (100 / 90).
Proof.
  rewrite <- ln_1. apply ln_increasing; lra.
Qed.

Lemma black_scholes_no_domain_check_witness :
  black_scholes_option 100 90 1 (/ 50) 0 "call"
  = Value (100 - 90 * exp (- / 50 * 1)) /\
  black_scholes_option 100 90 1 (/ 50) 0 "put" = Value 0.
Proof.
  pose proof ln_ratio_pos as Hln.
  destruct (black_scholes_no_domain_check 100 90 1 (/ 50) 0) as [_ H].
  destruct H as [H _]; try lra.
  apply H. lra.
Defined.

(** A zero volatility is not rejected: [d1] is infinite and the function
    returns the discounted intrinsic value, about 11.78 here; a zero
    maturity is not rejected either, and a negative volatility yields a
    number. *)
Lemma black_scholes_sigma_not_rejected :
  black_scholes_option 100 90 1 (/ 50) 0 "call"
  = Value (100 - 90 * exp (- / 50 * 1)) /\
  black_scholes_option 100 90 0 (/ 50) (/ 5) "put" = Value 0 /\
  exists v : R, black_scholes_option 100 90 1 (/ 50) (- / 5) "call" = Value v.
Proof.
  pose proof ln_ratio_pos as Hln. split; [| split].
  - destruct (black_scholes_zero_denominator 100 90 1 (/ 50) 0) as [H _];
      try lra. apply H. lra.
  - destruct (black_scholes_zero_denominator 100 90 0 (/ 50) (/ 5)) as [H _];
      try lra; [rewrite sqrt_0; lra |]. apply H. lra.
  - unfold black_scholes_option.
    destruct (Req_dec_T 90 0) as [| _]; [lra |].
    rewrite bs_d1_valid, bs_d2_valid by lra.
    cbn [norm_cdf_np String.eqb Ascii.eqb Bool.eqb]. eexists. reflexivity.
Qed.

(** ** The whole run *)

Lemma validation_value :
  forall c,
    str_in (Inputs.option_type c) ["call"; "put"] = true ->
    str_in (Inputs.option_nature c) ["european"; "asiatic"] = true ->
    validation c = Value tt.
Proof.
  intros c Hty Hna. unfold validation. rewrite Hty, Hna. reflexivity.
Qed.

Lemma n_steps_value :
  forall T dt, 0 < dt -> n_steps T dt = Value (py_int (T / dt)).
Proof.
  intros T dt Hdt. unfold n_steps. destruct (Req_dec_T dt 0); [lra | reflexivity].
Qed.

(** For positive [T] and [dt] the step count is the floor of [T / dt]; it is
    at least one exactly when [dt <= T]. *)
Lemma py_int_quotient :
  forall T dt, 0 < T -> 0 < dt ->
    (0 <= py_int (T / dt))%Z /\
    IZR (py_int (T / dt)) <= T / dt < IZR (py_int (T / dt)) + 1 /\
    ((1 <= py_int (T / dt))%Z <-> dt <= T).
Proof.
  intros T dt HT Hdt.
  assert (Hq : 0 < T / dt) by now apply Rdiv_lt_0_compat.
  destruct (py_int_bound (T / dt)) as [H0 [H1 H2]]; [lra |].
  repeat split; try assumption.
  - intro Hn. apply IZR_le in Hn.
    assert (H : 1 <= T / dt) by lra.
    apply (Rmult_le_compat_r dt) in H; [| lra].
    unfold Rdiv in H. rewrite Rmult_assoc, Rinv_l in H; lra.
  - intro Hle. rewrite py_int_nonneg by lra. apply Zfloor_lub.
    apply (Rmult_le_reg_r dt); [exact Hdt |].
    unfold Rdiv. rewrite Rmult_assoc, Rinv_l; lra.
Qed.

Lemma quot2_nonneg : forall n : Z, (-2 < n)%Z -> (0 <= Z.quot n 2)%Z.
Proof.
  intros n Hn. destruct (Z.eq_dec n (-1)) as [-> | Hne]; [discriminate |].
  apply Z.quot_pos; lia.
Qed.

Lemma payoff_runs :
  forall option_nature option_type K prices,
    str_in option_type ["call"; "put"] = true ->
    str_in option_nature ["european"; "asiatic"] = true ->
    well_shaped prices -> (1 <= ncols prices)%nat ->
    exists p, payoff option_nature option_type K prices = Value p /\
              length p = nrows prices.
Proof.
  intros option_nature option_type K prices Hty Hna Hw Hn.
  destruct (payoff_by_case K prices Hw Hn) as [H1 [H2 [H3 H4]]].
  apply str_in_call_put in Hty. apply str_in_european_asiatic in Hna.
  destruct Hna as [-> | ->], Hty as [-> | ->]; eexists; (split; [eassumption |]);
    apply length_map.
Qed.

(** The run up to the payoff vector: with valid strings, [0 < dt <= T] and
    [n_simul > -2] every statement before the final mean succeeds. *)
Lemma monte_carlo_stages :
  forall normal c,
    str_in (Inputs.option_type c) ["call"; "put"] = true ->
    str_in (Inputs.option_nature c) ["european"; "asiatic"] = true ->
    0 < Inputs.dt c -> Inputs.dt c <= Inputs.T c ->
    (-2 < Inputs.n_simul c)%Z ->
    exists (arw prices : ndarray) (p : list R),
      nrows prices = (2 * Z.to_nat (Z.quot (Inputs.n_simul c) 2))%nat /\
      ncols prices = Z.to_nat (py_int (Inputs.T c / Inputs.dt c)) /\
      well_shaped prices /\
      length p = nrows prices /\
      monte_carlo normal c
      = (price <- option_price (Inputs.rf c) (Inputs.T c) p ;;
         Value (Globals.make (py_int (Inputs.T c / Inputs.dt c))
                  arw prices p price)).
Proof.
  intros normal c Hty Hna Hdt HT Hs.
  destruct (py_int_quotient (Inputs.T c) (Inputs.dt c)) as [Hn0 [_ Hn1]];
    [lra | lra |].
  apply Hn1 in HT.
  set (n := py_int (Inputs.T c / Inputs.dt c)) in *.
  destruct (np_random_normal normal (Z.quot (Inputs.n_simul c) 2) n)
    as [rw | |] eqn:Erw;
    try (rewrite np_random_normal_value in Erw;
         [discriminate | now apply quot2_nonneg | lia]).
  apply np_random_normal_shape in Erw as Hrw.
  destruct Hrw as [_ [_ [Hr [Hc Hw]]]].
  destruct (antithetic_shape rw Hw) as [Ar [Ac Aw]].
  set (arw := antithetic_random_walks rw) in *.
  destruct (simulated_prices_shape (Inputs.S0 c) (Inputs.rf c) (Inputs.sigma c)
              (Inputs.dt c) arw Aw) as [Pr [Pc Pw]].
  set (prices := simulated_prices (Inputs.S0 c)
                   (elementwise (step_factor (Inputs.rf c) (Inputs.sigma c)
                                   (Inputs.dt c)) arw)) in *.
  destruct (payoff_runs (Inputs.option_nature c) (Inputs.option_type c)
              (Inputs.K c) prices Hty Hna Pw) as [p [Hp Lp]]; [lia |].
  exists arw, prices, p. repeat split; try assumption; try lia.
  unfold monte_carlo. rewrite validation_value by assumption. cbn [bind].
  rewrite n_steps_value by assumption. cbn [bind]. fold n.
  unfold random_walks. rewrite py_int_half, Erw. cbn [bind]. fold arw.
  rewrite coeff_multiplicateur_value by lra. cbn [bind]. fold prices.
  rewrite Hp. reflexivity.
Qed.

(** With at least two simulations, odd or even, the run completes and
    simulates [2 * (n_simul quot 2)] paths. *)
Lemma monte_carlo_runs :
  forall normal c,
    str_in (Inputs.option_type c) ["call"; "put"] = true ->
    str_in (Inputs.option_nature c) ["european"; "asiatic"] = true ->
    0 < Inputs.dt c -> Inputs.dt c <= Inputs.T c ->
    (2 <= Inputs.n_simul c)%Z ->
    exists g : Globals.t,
      monte_carlo normal c = Value g /\
      nrows (Globals.simulated_prices g)
      = (2 * Z.to_nat (Z.quot (Inputs.n_simul c) 2))%nat /\
      length (Globals.payoff g) = nrows (Globals.simulated_prices g).
Proof.
  intros normal c Hty Hna Hdt HT Hs.
  destruct (monte_carlo_stages normal c Hty Hna Hdt HT) as
    [arw [prices [p [Pr [Pc [Pw [Lp E]]]]]]]; [lia |].
  assert (Hq : (1 <= Z.quot (Inputs.n_simul c) 2)%Z).
  { rewrite Z.quot_div_nonneg by lia. apply Z.div_le_lower_bound; lia. }
  destruct p as [| x p]; [cbn [length] in Lp; lia |].
  rewrite E. unfold option_price. rewrite np_mean_nonempty by discriminate.
  cbn [bind]. eexists. split; [reflexivity |]. cbn. split; assumption.
Qed.

(** With [n_simul] among [-1], [0] and [1] no path is simulated and the
    final mean is taken over an empty vector: [nan], no exception. *)
Lemma monte_carlo_empty_batch :
  forall normal c,
    str_in (Inputs.option_type c) ["call"; "put"] = true ->
    str_in (Inputs.option_nature c) ["european"; "asiatic"] = true ->
    0 < Inputs.dt c -> Inputs.dt c <= Inputs.T c ->
    (-2 < Inputs.n_simul c < 2)%Z ->
    monte_carlo normal c = OutsideReals.
Proof.
  intros normal c Hty Hna Hdt HT Hs.
  destruct (monte_carlo_stages normal c Hty Hna Hdt HT) as
    [arw [prices [p [Pr [Pc [Pw [Lp E]]]]]]]; [lia |].
  assert (Hq : Z.quot (Inputs.n_simul c) 2 = 0%Z) by (apply Z.quot_small_iff; lia).
  rewrite Hq in Pr. rewrite Pr in Lp. destruct p; [| discriminate].
  rewrite E. reflexivity.
Qed.

(** With [n_simul <= -2] the generator is asked for a negative number of
    rows and raises. *)
Lemma monte_carlo_negative_batch :
  forall normal c,
    str_in (Inputs.option_type c) ["call"; "put"] = true ->
    str_in (Inputs.option_nature c) ["european"; "asiatic"] = true ->
    0 < Inputs.dt c ->
    (Inputs.n_simul c <= -2)%Z ->
    monte_carlo normal c = Raised ValueError.
Proof.
  intros normal c Hty Hna Hdt Hs.
  unfold monte_carlo. rewrite validation_value by assumption. cbn [bind].
  rewrite n_steps_value by assumption. cbn [bind].
  unfold random_walks, np_random_normal. rewrite py_int_half.
  assert (Hq : (Z.quot (Inputs.n_simul c) 2 < 0)%Z).
  { rewrite <- (Z.opp_involutive (Inputs.n_simul c)), Z.quot_opp_l by lia.
    assert (1 <= Z.quot (- Inputs.n_simul c) 2)%Z; [| lia].
    rewrite Z.quot_div_nonneg by lia. apply Z.div_le_lower_bound; lia. }
  destruct (Z.ltb_spec (Z.quot (Inputs.n_simul c) 2) 0); [reflexivity | lia].
Qed.

(** ** The number of time steps *)

(** With [T = 1.75] and [dt = 1] the step count is 1, while the nearest
    integer to [T / dt] is 2; with [T = 0.75] and [dt = 1] the step count is
    0, neither the nearest integer nor at least one. *)
Lemma n_steps_not_rounded :
  (0 < 7 / 4 /\ 0 < 1 /\
   n_steps (7 / 4) 1 = Value 1%Z /\ ~ nearest_integer (7 / 4 / 1) 1) /\
  (0 < 3 / 4 /\ 0 < 1 /\
   n_steps (3 / 4) 1 = Value 0%Z /\ ~ nearest_integer (3 / 4 / 1) 0 /\
   ~ (1 <= 0)%Z).
Proof.
  assert (A : forall x, Rabs x <= 1 / 2 -> x <= 1 / 2)
    by (intros x Hx; pose proof (Rle_abs x); lra).
  repeat split; try lra; try lia.
  - rewrite n_steps_value by lra. f_equal. apply py_int_eq; lra.
  - unfold nearest_integer. intro H. apply A in H. lra.
  - rewrite n_steps_value by lra. f_equal. apply py_int_eq; lra.
  - unfold nearest_integer. intro H. apply A in H. lra.
Qed.

(** ** The number of simulations is not validated *)

(** With [n_simul = 3] the run raises nothing: it simulates two paths and
    computes a price. *)
Lemma three_simulations_run :
  exists g : Globals.t,
    monte_carlo (fun i j => INR i - INR j) three_simulations = Value g /\
    nrows (Globals.simulated_prices g) = 2%nat /\
    length (Globals.payoff g) = 2%nat.
Proof.
  destruct (monte_carlo_runs (fun i j => INR i - INR j) three_simulations)
    as [g [E [Hr Hp]]];
    try reflexivity; try (cbn; lra); try (cbn; lia).
  exists g. split; [exact E |]. rewrite Hp, Hr. split; reflexivity.
Qed.

(** C6, as the code has it: the parity and the size of [n_simul] are not
    checked.  With valid option strings and [0 < dt <= T]: for
    [n_simul >= 2], odd or even, the run completes on
    [2 * (n_simul quot 2)] paths; for [n_simul] among [-1], [0], [1] it
    carries on with an empty batch and the price is [nan]; for
    [n_simul <= -2] the random generator raises [ValueError]. *)
Theorem n_simul_not_validated :
  forall (normal : nat -> nat -> R) (c : Inputs.t),
    str_in (Inputs.option_type c) ["call"; "put"] = true ->
    str_in (Inputs.option_nature c) ["european"; "asiatic"] = true ->
    0 < Inputs.dt c -> Inputs.dt c <= Inputs.T c ->
    ((2 <= Inputs.n_simul c)%Z ->
     exists g : Globals.t,
       monte_carlo normal c = Value g /\
       nrows (Globals.simulated_prices g)
       = (2 * Z.to_nat (Z.quot (Inputs.n_simul c) 2))%nat /\
       length (Globals.payoff g) = nrows (Globals.simulated_prices g)) /\
    ((-2 < Inputs.n_simul c < 2)%Z -> monte_carlo normal c = OutsideReals) /\
    ((Inputs.n_simul c <= -2)%Z -> monte_carlo normal c = Raised ValueError).
Proof.
  intros normal c Hty Hna Hdt HT. split; [| split].
  - now apply monte_carlo_runs.
  - now apply monte_carlo_empty_batch.
  - now apply monte_carlo_negative_batch.
Qed.

Lemma n_simul_not_validated_witness :
  ((2 <= 5)%Z ->
   exists g : Globals.t,
     monte_carlo (fun i j => INR i - INR j)
       (Inputs.make 100 90 (/ 2) (/ 50) (/ 5) 5 (/ 4) "put" "asiatic")
     = Value g /\
     nrows (Globals.simulated_prices g) = (2 * Z.to_nat (Z.quot 5 2))%nat /\
     length (Globals.payoff g) = nrows (Globals.simulated_prices g)) /\
  ((-2 < 5 < 2)%Z ->
   monte_carlo (fun i j => INR i - INR j)
     (Inputs.make 100 90 (/ 2) (/ 50) (/ 5) 5 (/ 4) "put" "asiatic")
   = OutsideReals) /\
  ((5 <= -2)%Z ->
   monte_carlo (fun i j => INR i - INR j)
     (Inputs.make 100 90 (/ 2) (/ 50) (/ 5) 5 (/ 4) "put" "asiatic")
   = Raised ValueError).
Proof.
  apply (n_simul_not_validated (fun i j => INR i - INR j)
           (Inputs.make 100 90 (/ 2) (/ 50) (/ 5) 5 (/ 4) "put" "asiatic"));
    [reflexivity | reflexivity | cbn; lra | cbn; lra].
Defined.

(** ** Fewer than one time step *)

(** With [0 < T < dt] the step count is zero and, for a European option, the
    last column of the empty price matrix does not exist: the run raises
    [IndexError]. *)
Lemma zero_steps_european_raises :
  forall normal c,
    str_in (Inputs.option_type c) ["call"; "put"] = true ->
    Inputs.option_nature c = "european" ->
    0 < Inputs.T c < Inputs.dt c ->
    (-2 < Inputs.n_simul c)%Z ->
    monte_carlo normal c = Raised IndexError.
Proof.
  intros normal c Hty Hna HT Hs.
  assert (Hq : 0 < Inputs.T c / Inputs.dt c) by (apply Rdiv_lt_0_compat; lra).
  assert (Hq1 : Inputs.T c / Inputs.dt c < 1).
  { apply (Rmult_lt_reg_r (Inputs.dt c)); [lra |].
    unfold Rdiv. rewrite Rmult_assoc, Rinv_l; lra. }
  assert (Hn : py_int (Inputs.T c / Inputs.dt c) = 0%Z) by (apply py_int_eq; lra).
  unfold monte_carlo. rewrite validation_value; [| exact Hty | now rewrite Hna].
  cbn [bind]. rewrite n_steps_value by lra. cbn [bind]. rewrite Hn.
  unfold random_walks. rewrite py_int_half.
  rewrite np_random_normal_value; [| now apply quot2_nonneg | lia].
  cbn [bind]. rewrite coeff_multiplicateur_value by lra. cbn [bind].
  rewrite Hna. apply str_in_call_put in Hty.
  destruct Hty as [-> | ->]; reflexivity.
Qed.

(** The Black-Scholes cell refuses any option nature other than European. *)
Lemma black_scholes_cell_asiatic :
  forall c, Inputs.option_nature c = "asiatic" ->
    black_scholes_cell c = Raised ValueError.
Proof.
  intros c H. unfold black_scholes_cell. now rewrite H.
Qed.

(** * Further properties of the simulation cell *)

(** ** Sums and means of vectors *)

Lemma np_sum_cons : forall x l, np_sum (x :: l) = x + np_sum l.
Proof.
  intros x l. unfold np_sum. cbn [fold_left].
  rewrite (fold_left_Rplus_big_sum l (0 + x)), (fold_left_Rplus_big_sum l 0). lra.
Qed.

Lemma np_sum_app : forall l1 l2, np_sum (l1 ++ l2) = np_sum l1 + np_sum l2.
Proof.
  induction l1 as [| x l1 IH]; intro l2.
  - cbn [app]. unfold np_sum at 2. cbn [fold_left]. lra.
  - cbn [app]. rewrite !np_sum_cons, IH. lra.
Qed.

Lemma np_sum_map_opp : forall l, np_sum (map Ropp l) = - np_sum l.
Proof.
  induction l as [| x l IH].
  - unfold np_sum. cbn. lra.
  - cbn [map]. rewrite !np_sum_cons, IH. lra.
Qed.

Lemma np_sum_map_scal :
  forall (k : R) l, np_sum (map (Rmult k) l) = k * np_sum l.
Proof.
  induction l as [| x l IH].
  - unfold np_sum. cbn. lra.
  - cbn [map]. rewrite !np_sum_cons, IH. lra.
Qed.

Lemma np_sum_nonneg : forall l, Forall (fun x => 0 <= x) l -> 0 <= np_sum l.
Proof.
  induction 1 as [| x l Hx Hl IH].
  - unfold np_sum. cbn. lra.
  - rewrite np_sum_cons. lra.
Qed.

Lemma np_sum_le :
  forall (b : R) l, Forall (fun x => x <= b) l -> np_sum l <= INR (length l) * b.
Proof.
  induction 1 as [| x l Hx Hl IH].
  - unfold np_sum. cbn. lra.
  - rewrite np_sum_cons. cbn [length]. rewrite S_INR. lra.
Qed.

Lemma arithmetic_mean_np_sum :
  forall v, arithmetic_mean v = np_sum v / INR (length v).
Proof. intro v. unfold arithmetic_mean. now rewrite np_sum_big_sum. Qed.

Lemma INR_length_pos : forall (A : Type) (l : list A), l <> [] -> 0 < INR (length l).
Proof.
  intros A [| x l] H; [contradiction |]. cbn [length]. apply lt_0_INR. lia.
Qed.

(** ** The price at a given step *)

(** Entry [t] of a running product of step factors started at [S]: the
    exponents add up. *)
Lemma cumprod_from_step_factors :
  forall rf sigma dt (z : list R) (s : R) (t : nat),
    (t < length z)%nat ->
    nth t (cumprod_from s (map (step_factor rf sigma dt) z)) 0
    = s * exp ((rf - sigma ^ 2 / 2) * dt * INR (t + 1)
               + sigma * sqrt dt * big_sum (S_at z) (t + 1)).
Proof.
  intros rf sigma dt z. induction z as [| x z IH]; intros s t Ht.
  - cbn [length] in Ht. lia.
  - cbn [map cumprod_from]. destruct t as [| t].
    + cbn [nth]. unfold step_factor. cbn [Nat.add big_sum INR].
      unfold S_at at 1. cbn [nth]. do 2 f_equal. lra.
    + cbn [nth]. cbn [length] in Ht. rewrite IH by lia.
      unfold step_factor at 1. rewrite Rmult_assoc, <- exp_plus.
      replace (S t + 1)%nat with (S (t + 1)) by lia.
      rewrite big_sum_shift, (S_INR (t + 1)). do 2 f_equal. lra.
Qed.

Lemma big_sum_map_opp :
  forall z n, big_sum (S_at (map Ropp z)) n = - big_sum (S_at z) n.
Proof.
  intros z n. induction n as [| n IH].
  - cbn [big_sum]. lra.
  - cbn [big_sum]. rewrite IH. unfold S_at.
    replace 0 with (- 0) at 1 by lra. rewrite map_nth. lra.
Qed.

Lemma simulated_prices_row :
  forall S0 rf sigma dt Z i z,
    nth_error (rows Z) i = Some z ->
    nth_error (rows (simulated_prices S0 (elementwise (step_factor rf sigma dt) Z))) i
    = Some (cumprod_from S0 (map (step_factor rf sigma dt) z)).
Proof.
  intros S0 rf sigma dt Z i z H. rewrite simulated_prices_rows.
  now rewrite nth_error_map, H.
Qed.

(** X1: for a non-negative time step, the simulated price of path [i] after
    step [t] is [S0 * exp((rf - sigma^2/2) dt (t+1) + sigma sqrt(dt) W)],
    where [W] is the sum of the first [t+1] draws of that path. *)
Theorem price_at_step :
  forall (S0 rf sigma dt : R) (Z : ndarray) (i : nat) (z : list R) (t : nat),
    0 <= dt -> nth_error (rows Z) i = Some z -> (t < length z)%nat ->
    exists (coeff : ndarray) (path : list R),
      coeff_multiplicateur rf sigma dt Z = Value coeff /\
      nth_error (rows (simulated_prices S0 coeff)) i = Some path /\
      nth t path 0
      = S0 * exp ((rf - sigma ^ 2 / 2) * dt * INR (t + 1)
                  + sigma * sqrt dt * big_sum (S_at z) (t + 1)).
Proof.
  intros S0 rf sigma dt Z i z t Hdt Hz Ht.
  exists (elementwise (step_factor rf sigma dt) Z).
  exists (cumprod_from S0 (map (step_factor rf sigma dt) z)).
  split; [now apply coeff_multiplicateur_value |].
  split; [now apply simulated_prices_row |].
  now apply cumprod_from_step_factors.
Qed.

Lemma price_at_step_witness :
  exists (coeff : ndarray) (path : list R),
    coeff_multiplicateur (/ 50) (/ 5) (/ 4)
      {| rows := [[1; -1; 0]; [-1; 1; 0]]; ncols := 3 |} = Value coeff /\
    nth_error (rows (simulated_prices 100 coeff)) 1 = Some path /\
    nth 2 path 0
    = 100 * exp ((/ 50 - (/ 5) ^ 2 / 2) * / 4 * INR (2 + 1)
                 + / 5 * sqrt (/ 4) * big_sum (S_at [-1; 1; 0]) (2 + 1)).
Proof.
  apply (price_at_step 100 (/ 50) (/ 5) (/ 4)
           {| rows := [[1; -1; 0]; [-1; 1; 0]]; ncols := 3 |} 1 [-1; 1; 0] 2);
    [lra | reflexivity | cbn; lia].
Defined.

(** X2: a path and its antithetic mirror multiply, step by step, to the
    square of the noise-free price: the product of the prices of rows [i]
    and [i + h] after step [t] is [S0^2 * exp(2 (rf - sigma^2/2) dt (t+1))],
    whatever the draws. *)
Theorem antithetic_paths_product :
  forall (S0 rf sigma dt : R) (rw : ndarray) (i : nat) (z : list R) (t : nat),
    0 <= dt -> nth_error (rows rw) i = Some z -> (t < length z)%nat ->
    exists (coeff : ndarray) (p q : list R),
      coeff_multiplicateur rf sigma dt (antithetic_random_walks rw)
      = Value coeff /\
      nth_error (rows (simulated_prices S0 coeff)) i = Some p /\
      nth_error (rows (simulated_prices S0 coeff)) (i + nrows rw) = Some q /\
      nth t p 0 * nth t q 0
      = S0 ^ 2 * exp (2 * ((rf - sigma ^ 2 / 2) * dt * INR (t + 1))).
Proof.
  intros S0 rf sigma dt rw i z t Hdt Hz Ht.
  destruct (antithetic_rows rw i z Hz) as [H1 H2].
  exists (elementwise (step_factor rf sigma dt) (antithetic_random_walks rw)).
  exists (cumprod_from S0 (map (step_factor rf sigma dt) z)).
  exists (cumprod_from S0 (map (step_factor rf sigma dt) (map Ropp z))).
  split; [now apply coeff_multiplicateur_value |].
  split; [now apply simulated_prices_row |].
  split; [now apply simulated_prices_row |].
  rewrite !cumprod_from_step_factors by (rewrite ?length_map; exact Ht).
  rewrite big_sum_map_opp.
  replace (S0 * exp ((rf - sigma ^ 2 / 2) * dt * INR (t + 1)
                     + sigma * sqrt dt * big_sum (S_at z) (t + 1))
           * (S0 * exp ((rf - sigma ^ 2 / 2) * dt * INR (t + 1)
                        + sigma * sqrt dt * - big_sum (S_at z) (t + 1))))
    with (S0 ^ 2
          * (exp ((rf - sigma ^ 2 / 2) * dt * INR (t + 1)
                  + sigma * sqrt dt * big_sum (S_at z) (t + 1))
             * exp ((rf - sigma ^ 2 / 2) * dt * INR (t + 1)
                    + sigma * sqrt dt * - big_sum (S_at z) (t + 1)))) by ring.
  rewrite <- exp_plus. do 2 f_equal. lra.
Qed.

Lemma antithetic_paths_product_witness :
  exists (coeff : ndarray) (p q : list R),
    coeff_multiplicateur (/ 50) (/ 5) (/ 4)
      (antithetic_random_walks {| rows := [[1; 3]; [2; -5]]; ncols := 2 |})
    = Value coeff /\
    nth_error (rows (simulated_prices 100 coeff)) 1 = Some p /\
    nth_error (rows (simulated_prices 100 coeff))
      (1 + nrows {| rows := [[1; 3]; [2; -5]]; ncols := 2 |}) = Some q /\
    nth 1 p 0 * nth 1 q 0
    = 100 ^ 2 * exp (2 * ((/ 50 - (/ 5) ^ 2 / 2) * / 4 * INR (1 + 1))).
Proof.
  apply (antithetic_paths_product 100 (/ 50) (/ 5) (/ 4)
           {| rows := [[1; 3]; [2; -5]]; ncols := 2 |} 1 [2; -5] 1);
    [lra | reflexivity | cbn; lia].
Defined.

Lemma column_elementwise_opp :
  forall j a, column j (elementwise Ropp a) = map Ropp (column j a).
Proof.
  intros j a. unfold column, elementwise. cbn [rows]. rewrite !map_map.
  apply map_ext. intro r. replace 0 with (- 0) at 1 by lra. apply map_nth.
Qed.

(** X3: in the antithetic matrix the draws of every time step sum to zero
    over the simulations. *)
Theorem antithetic_columns_sum_to_zero :
  forall (rw : ndarray) (j : nat),
    np_sum (column j (antithetic_random_walks rw)) = 0.
Proof.
  intros rw j.
  assert (E : column j (antithetic_random_walks rw)
              = (column j rw ++ column j (elementwise Ropp rw))%list).
  { unfold column, antithetic_random_walks, np_vstack. cbn [rows].
    apply map_app. }
  rewrite E, np_sum_app, column_elementwise_opp, np_sum_map_opp. lra.
Qed.

Lemma deterministic_path_length :
  forall S0 rf dt n, length (deterministic_path S0 rf dt n) = n.
Proof. intros. unfold deterministic_path. now rewrite length_map, length_seq. Qed.

Lemma nth_map_seq :
  forall (f : nat -> R) (n t : nat) (d : R),
    (t < n)%nat -> nth t (map f (seq 0 n)) d = f t.
Proof.
  intros f n t d Ht.
  rewrite (nth_indep _ d (f 0%nat)) by now rewrite length_map, length_seq.
  now rewrite map_nth, seq_nth.
Qed.

(** With a zero volatility a path does not depend on its draws. *)
Lemma zero_volatility_row :
  forall S0 rf dt z,
    cumprod_from S0 (map (step_factor rf 0 dt) z)
    = deterministic_path S0 rf dt (length z).
Proof.
  intros S0 rf dt z. apply (nth_ext _ _ 0 0).
  - now rewrite cumprod_from_length, length_map, deterministic_path_length.
  - intros t Ht. rewrite cumprod_from_length, length_map in Ht.
    rewrite cumprod_from_step_factors by exact Ht.
    unfold deterministic_path. rewrite nth_map_seq by exact Ht.
    do 2 f_equal. lra.
Qed.

(** X4: with [sigma = 0] and a non-negative time step every simulated path
    is the noise-free path [S0 * exp(rf dt (t+1))], whatever the draws. *)
Theorem zero_volatility_paths :
  forall (S0 rf dt : R) (Z : ndarray),
    0 <= dt -> well_shaped Z ->
    exists coeff : ndarray,
      coeff_multiplicateur rf 0 dt Z = Value coeff /\
      Forall (fun path => path = deterministic_path S0 rf dt (ncols Z))
             (rows (simulated_prices S0 coeff)).
Proof.
  intros S0 rf dt Z Hdt Hw.
  exists (elementwise (step_factor rf 0 dt) Z).
  split; [now apply coeff_multiplicateur_value |].
  rewrite simulated_prices_rows. apply Forall_forall. intros path Hp.
  apply in_map_iff in Hp. destruct Hp as [z [<- Hz]].
  rewrite zero_volatility_row. f_equal.
  now apply (proj1 (Forall_forall _ _) Hw).
Qed.

Lemma zero_volatility_paths_witness :
  exists coeff : ndarray,
    coeff_multiplicateur (/ 50) 0 (/ 4)
      {| rows := [[1; -1; 0]; [-1; 1; 0]]; ncols := 3 |} = Value coeff /\
    Forall (fun path =>
              path = deterministic_path 100 (/ 50) (/ 4)
                       (ncols {| rows := [[1; -1; 0]; [-1; 1; 0]]; ncols := 3 |}))
           (rows (simulated_prices 100 coeff)).
Proof.
  apply (zero_volatility_paths 100 (/ 50) (/ 4)
           {| rows := [[1; -1; 0]; [-1; 1; 0]]; ncols := 3 |});
    [lra | repeat constructor].
Defined.

(** ** What a completed run consists of *)

Lemma bind_value :
  forall (A B : Type) (m : outcome A) (k : A -> outcome B) (b : B),
    bind m k = Value b -> exists a, m = Value a /\ k a = Value b.
Proof.
  intros A B [a | e |] k b H; try discriminate. now exists a.
Qed.

(** A run that ends with a value went through every statement of the two
    cells. *)
Lemma monte_carlo_inv :
  forall normal c g,
    monte_carlo normal c = Value g ->
    exists rw : ndarray,
      validation c = Value tt /\
      0 < Inputs.dt c /\
      random_walks normal (Inputs.n_simul c)
        (py_int (Inputs.T c / Inputs.dt c)) = Value rw /\
      Globals.n_steps g = py_int (Inputs.T c / Inputs.dt c) /\
      Globals.antithetic_random_walks g = antithetic_random_walks rw /\
      Globals.simulated_prices g
      = simulated_prices (Inputs.S0 c)
          (elementwise
             (step_factor (Inputs.rf c) (Inputs.sigma c) (Inputs.dt c))
             (antithetic_random_walks rw)) /\
      payoff (Inputs.option_nature c) (Inputs.option_type c) (Inputs.K c)
        (Globals.simulated_prices g) = Value (Globals.payoff g) /\
      option_price (Inputs.rf c) (Inputs.T c) (Globals.payoff g)
      = Value (Globals.option_price g).
Proof.
  intros normal c g H. unfold monte_carlo in H.
  apply bind_value in H. destruct H as [[] [Hv H]].
  apply bind_value in H. destruct H as [n [Hn H]].
  apply bind_value in H. destruct H as [rw [Hrw H]].
  apply bind_value in H. destruct H as [coeff [Hc H]].
  apply bind_value in H. destruct H as [p [Hp H]].
  apply bind_value in H. destruct H as [price [Hpr H]].
  injection H as <-. cbn.
  unfold n_steps in Hn. destruct (Req_dec_T (Inputs.dt c) 0) as [| Hd0];
    [discriminate |]. injection Hn as <-.
  unfold coeff_multiplicateur in Hc.
  destruct (Rlt_dec (Inputs.dt c) 0) as [| Hd]; [discriminate |].
  injection Hc as <-.
  exists rw. repeat split; try assumption; try reflexivity. lra.
Qed.

(** ** Payoffs as a function of the underlying quantity *)

(** A computed payoff vector has non-negative entries. *)
Lemma payoff_value_nonneg :
  forall option_nature option_type K prices p,
    payoff option_nature option_type K prices = Value p ->
    Forall (fun x => 0 <= x) p.
Proof.
  intros option_nature option_type K prices p H. unfold payoff in H.
  repeat match type of H with
  | (if ?b then _ else _) = _ => destruct b
  | bind ?m _ = _ => destruct m; cbn [bind] in H
  end; try discriminate; injection H as <-; apply np_maximum0_nonneg.
Qed.

Lemma payoff_call_value :
  forall option_nature K prices,
    str_in option_nature ["european"; "asiatic"] = true ->
    well_shaped prices -> (1 <= ncols prices)%nat ->
    payoff option_nature "call" K prices
    = Value (map (fun path => Rmax (underlying option_nature path - K) 0)
                 (rows prices)).
Proof.
  intros option_nature K prices Hna Hw Hn.
  destruct (payoff_by_case K prices Hw Hn) as [H1 [_ [H3 _]]].
  apply str_in_european_asiatic in Hna. destruct Hna as [-> | ->]; assumption.
Qed.

Lemma payoff_put_value :
  forall option_nature K prices,
    str_in option_nature ["european"; "asiatic"] = true ->
    well_shaped prices -> (1 <= ncols prices)%nat ->
    payoff option_nature "put" K prices
    = Value (map (fun path => Rmax (K - underlying option_nature path) 0)
                 (rows prices)).
Proof.
  intros option_nature K prices Hna Hw Hn.
  destruct (payoff_by_case K prices Hw Hn) as [_ [H2 [_ H4]]].
  apply str_in_european_asiatic in Hna. destruct Hna as [-> | ->]; assumption.
Qed.

Lemma option_price_value :
  forall rf T p, p <> [] ->
    option_price rf T p = Value (exp (- rf * T) * (np_sum p / INR (length p))).
Proof.
  intros rf T p Hp. unfold option_price, discount_factor.
  destruct p as [| x p]; [contradiction | reflexivity].
Qed.

Lemma np_sum_call_minus_put :
  forall (u : list R -> R) (K : R) (l : list (list R)),
    np_sum (map (fun path => Rmax (u path - K) 0) l)
    - np_sum (map (fun path => Rmax (K - u path) 0) l)
    = np_sum (map u l) - INR (length l) * K.
Proof.
  intros u K l. induction l as [| r l IH].
  - unfold np_sum. cbn. lra.
  - cbn [map length]. rewrite !np_sum_cons, S_INR.
    assert (E : Rmax (u r - K) 0 - Rmax (K - u r) 0 = u r - K).
    { unfold Rmax. destruct (Rle_dec (u r - K) 0), (Rle_dec (K - u r) 0); lra. }
    lra.
Qed.

(** X5: on the same simulated prices, the Monte Carlo call price minus the
    Monte Carlo put price is the discounted difference between the mean of
    the underlying quantity (terminal price for European, path mean for
    Asian) and the strike. *)
Theorem simulated_put_call_parity :
  forall (option_nature : string) (K T rf : R) (prices : ndarray),
    str_in option_nature ["european"; "asiatic"] = true ->
    well_shaped prices -> (1 <= ncols prices)%nat -> (1 <= nrows prices)%nat ->
    exists (pc pp : list R) (c p : R),
      payoff option_nature "call" K prices = Value pc /\
      payoff option_nature "put" K prices = Value pp /\
      option_price rf T pc = Value c /\
      option_price rf T pp = Value p /\
      c - p
      = exp (- rf * T)
        * (arithmetic_mean (map (underlying option_nature) (rows prices)) - K).
Proof.
  intros option_nature K T rf prices Hna Hw Hn Hr.
  assert (Hne : rows prices <> []).
  { unfold nrows in Hr. destruct (rows prices); [cbn in Hr; lia | discriminate]. }
  pose proof (INR_length_pos _ (rows prices) Hne) as Hpos.
  do 4 eexists.
  split; [now apply payoff_call_value |].
  split; [now apply payoff_put_value |].
  split; [apply option_price_value; destruct (rows prices); [contradiction | discriminate] |].
  split; [apply option_price_value; destruct (rows prices); [contradiction | discriminate] |].
  rewrite arithmetic_mean_np_sum, !length_map.
  pose proof (np_sum_call_minus_put (underlying option_nature) K (rows prices)) as E.
  set (n := INR (length (rows prices))) in *.
  set (A := np_sum (map _ (rows prices))) in E at 1.
  set (B := np_sum (map _ (rows prices))) in E at 1.
  set (U := np_sum (map _ (rows prices))) in E.
  fold A B U.
  replace (exp (- rf * T) * (A / n) - exp (- rf * T) * (B / n))
    with (exp (- rf * T) * ((A - B) / n)) by (field; lra).
  rewrite E. field. lra.
Qed.

Lemma simulated_put_call_parity_witness :
  exists (pc pp : list R) (c p : R),
    payoff "asiatic" "call" 90
      {| rows := [[100; 110; 120]; [100; 90; 80]]; ncols := 3 |} = Value pc /\
    payoff "asiatic" "put" 90
      {| rows := [[100; 110; 120]; [100; 90; 80]]; ncols := 3 |} = Value pp /\
    option_price (/ 50) (/ 2) pc = Value c /\
    option_price (/ 50) (/ 2) pp = Value p /\
    c - p
    = exp (- / 50 * / 2)
      * (arithmetic_mean
           (map (underlying "asiatic") [[100; 110; 120]; [100; 90; 80]]) - 90).
Proof.
  apply (simulated_put_call_parity "asiatic" 90 (/ 2) (/ 50)
           {| rows := [[100; 110; 120]; [100; 90; 80]]; ncols := 3 |});
    [reflexivity | repeat constructor | cbn; lia | cbn; lia].
Defined.

(** ** Scaling the asset and the strike *)

Lemma Rmax_scale :
  forall k a, 0 <= k -> Rmax (k * a) 0 = k * Rmax a 0.
Proof.
  intros k a Hk. unfold Rmax.
  destruct (Rle_dec (k * a) 0), (Rle_dec a 0); try nra.
Qed.

Lemma last_scale :
  forall k r, last (map (Rmult k) r) 0 = k * last r 0.
Proof.
  intros k r. induction r as [| x [| y r] IH].
  - cbn. lra.
  - reflexivity.
  - change (last (map (Rmult k) (x :: y :: r)) 0)
      with (last (map (Rmult k) (y :: r)) 0).
    rewrite IH. reflexivity.
Qed.

Lemma np_mean_scale :
  forall k r, np_mean (map (Rmult k) r) = outcome_map (Rmult k) (np_mean r).
Proof.
  intros k [| x r]; [reflexivity |].
  unfold np_mean. cbn [map outcome_map].
  change (Rmult k x :: map (Rmult k) r) with (map (Rmult k) (x :: r)).
  rewrite np_sum_map_scal, length_map. f_equal. unfold Rdiv. ring.
Qed.

Lemma means_scale :
  forall k l,
    means (map (map (Rmult k)) l) = outcome_map (map (Rmult k)) (means l).
Proof.
  intros k l. induction l as [| r l IH]; [reflexivity |].
  cbn [map means]. rewrite np_mean_scale, IH.
  destruct (np_mean r); cbn [outcome_map bind]; try reflexivity.
  destruct (means l); reflexivity.
Qed.

Lemma np_maximum0_call_scale :
  forall k K s, 0 <= k ->
    np_maximum0 (map (fun x => x - k * K) (map (Rmult k) s))
    = map (Rmult k) (np_maximum0 (map (fun x => x - K) s)).
Proof.
  intros k K s Hk. unfold np_maximum0. rewrite !map_map. apply map_ext.
  intro x. rewrite <- Rmax_scale by exact Hk. f_equal. ring.
Qed.

Lemma np_maximum0_put_scale :
  forall k K s, 0 <= k ->
    np_maximum0 (map (fun x => k * K - x) (map (Rmult k) s))
    = map (Rmult k) (np_maximum0 (map (fun x => K - x) s)).
Proof.
  intros k K s Hk. unfold np_maximum0. rewrite !map_map. apply map_ext.
  intro x. rewrite <- Rmax_scale by exact Hk. f_equal. ring.
Qed.

Lemma payoff_scale :
  forall k option_nature option_type K prices, 0 <= k ->
    payoff option_nature option_type (k * K) (elementwise (Rmult k) prices)
    = outcome_map (map (Rmult k)) (payoff option_nature option_type K prices).
Proof.
  intros k option_nature option_type K prices Hk. unfold payoff.
  assert (HL : last_column (elementwise (Rmult k) prices)
               = outcome_map (map (Rmult k)) (last_column prices)).
  { unfold last_column, elementwise. cbn [rows ncols].
    destruct (Nat.eqb (ncols prices) 0); [reflexivity |].
    cbn [outcome_map]. f_equal. rewrite !map_map. apply map_ext.
    intro r. apply last_scale. }
  assert (HM : np_mean_axis1 (elementwise (Rmult k) prices)
               = outcome_map (map (Rmult k)) (np_mean_axis1 prices)).
  { unfold np_mean_axis1, elementwise. cbn [rows]. apply means_scale. }
  rewrite HL, HM.
  destruct (option_nature =? "european")%string.
  - destruct (option_type =? "call")%string;
      [| destruct (option_type =? "put")%string; [| reflexivity]];
      destruct (last_column prices); cbn [outcome_map bind]; try reflexivity;
      f_equal; [now apply np_maximum0_call_scale | now apply np_maximum0_put_scale].
  - destruct (option_nature =? "asiatic")%string; [| reflexivity].
    destruct (option_type =? "call")%string;
      [| destruct (option_type =? "put")%string; [| reflexivity]];
      destruct (np_mean_axis1 prices); cbn [outcome_map bind]; try reflexivity;
      f_equal; [now apply np_maximum0_call_scale | now apply np_maximum0_put_scale].
Qed.

Lemma simulated_prices_scale :
  forall k S0 coeff,
    simulated_prices (k * S0) coeff
    = elementwise (Rmult k) (simulated_prices S0 coeff).
Proof.
  intros k S0 coeff. unfold simulated_prices, elementwise, np_cumprod_axis1.
  cbn [rows ncols]. f_equal. rewrite !map_map. apply map_ext. intro r.
  rewrite !map_map. apply map_ext. intro x. ring.
Qed.

Lemma option_price_scale :
  forall k rf T p,
    option_price rf T (map (Rmult k) p)
    = outcome_map (Rmult k) (option_price rf T p).
Proof.
  intros k rf T p. unfold option_price. rewrite np_mean_scale.
  destruct (np_mean p); cbn [outcome_map bind]; try reflexivity.
  f_equal. ring.
Qed.

(** X6: the price is homogeneous of degree one: multiplying the initial
    price and the strike by the same [k >= 0] multiplies the computed price
    by [k] on the same coefficient matrix, and leaves an exception or a
    [nan] as it is. *)
Theorem price_scales_with_asset_and_strike :
  forall (k S0 K T rf : R) (option_nature option_type : string)
         (coeff : ndarray),
    0 <= k ->
    price_from_coeff (k * S0) (k * K) T rf option_nature option_type coeff
    = outcome_map (Rmult k)
        (price_from_coeff S0 K T rf option_nature option_type coeff).
Proof.
  intros k S0 K T rf option_nature option_type coeff Hk.
  unfold price_from_coeff. rewrite simulated_prices_scale, payoff_scale by exact Hk.
  destruct (payoff option_nature option_type K (simulated_prices S0 coeff));
    cbn [outcome_map bind]; try reflexivity.
  apply option_price_scale.
Qed.

Lemma price_scales_with_asset_and_strike_witness :
  price_from_coeff (2 * 100) (2 * 90) (/ 2) (/ 50) "asiatic" "put"
    {| rows := [[1; 2]; [3; / 2]]; ncols := 2 |}
  = outcome_map (Rmult 2)
      (price_from_coeff 100 90 (/ 2) (/ 50) "asiatic" "put"
         {| rows := [[1; 2]; [3; / 2]]; ncols := 2 |}).
Proof.
  apply (price_scales_with_asset_and_strike 2 100 90 (/ 2) (/ 50)
           "asiatic" "put" {| rows := [[1; 2]; [3; / 2]]; ncols := 2 |}).
  lra.
Defined.

(** [price_from_coeff] is the tail of the simulation cell. *)
Lemma monte_carlo_price :
  forall normal c,
    outcome_map Globals.option_price (monte_carlo normal c)
    = (_ <- validation c ;;
       n <- n_steps (Inputs.T c) (Inputs.dt c) ;;
       rw <- random_walks normal (Inputs.n_simul c) n ;;
       coeff <- coeff_multiplicateur (Inputs.rf c) (Inputs.sigma c)
                  (Inputs.dt c) (antithetic_random_walks rw) ;;
       price_from_coeff (Inputs.S0 c) (Inputs.K c) (Inputs.T c) (Inputs.rf c)
         (Inputs.option_nature c) (Inputs.option_type c) coeff).
Proof.
  intros normal c. unfold monte_carlo, price_from_coeff.
  destruct (validation c); cbn [bind outcome_map]; try reflexivity.
  destruct (n_steps _ _); cbn [bind outcome_map]; try reflexivity.
  destruct (random_walks _ _ _); cbn [bind outcome_map]; try reflexivity.
  destruct (coeff_multiplicateur _ _ _ _); cbn [bind outcome_map]; try reflexivity.
  destruct (payoff _ _ _ _); cbn [bind outcome_map]; try reflexivity.
  destruct (option_price _ _ _); reflexivity.
Qed.

(** ** Bounds on the computed price *)

Lemma option_price_inv :
  forall rf T p v, option_price rf T p = Value v ->
    p <> [] /\ v = exp (- rf * T) * (np_sum p / INR (length p)).
Proof.
  intros rf T p v H. destruct p as [| x p]; [discriminate |].
  split; [discriminate |]. rewrite option_price_value in H by discriminate.
  now injection H as <-.
Qed.

(** X7: the price a completed run reports is never negative. *)
Theorem option_price_nonnegative :
  forall (normal : nat -> nat -> R) (c : Inputs.t) (g : Globals.t),
    monte_carlo normal c = Value g -> 0 <= Globals.option_price g.
Proof.
  intros normal c g H.
  destruct (monte_carlo_inv normal c g H) as [rw [_ [_ [_ [_ [_ [_ [Hp Hpr]]]]]]]].
  apply payoff_value_nonneg in Hp. apply np_sum_nonneg in Hp.
  apply option_price_inv in Hpr. destruct Hpr as [Hne ->].
  pose proof (INR_length_pos _ _ Hne) as Hn.
  pose proof (exp_pos (- Inputs.rf c * Inputs.T c)) as He.
  apply Rmult_le_pos; [lra |]. apply Rmult_le_pos; [exact Hp |].
  apply Rlt_le, Rinv_0_lt_compat, Hn.
Qed.

Lemma means_nonneg :
  forall l ms, means l = Value ms ->
    Forall (Forall (fun s => 0 < s)) l -> Forall (fun m => 0 <= m) ms.
Proof.
  induction l as [| r l IH]; intros ms H Hl.
  - injection H as <-. constructor.
  - cbn [means] in H. apply bind_value in H. destruct H as [m [Hm H]].
    apply bind_value in H. destruct H as [ms' [Hms H]]. injection H as <-.
    inversion Hl as [| ? ? Hr Hl']; subst. constructor; [| now apply IH].
    destruct r as [| x r]; [discriminate |]. unfold np_mean in Hm.
    injection Hm as <-.
    apply Rmult_le_pos.
    + apply np_sum_nonneg. eapply Forall_impl; [| exact Hr].
      intros a Ha. cbn in Ha. lra.
    + apply Rlt_le, Rinv_0_lt_compat, (INR_length_pos _ (x :: r)). discriminate.
Qed.

Lemma last_nonneg :
  forall r, Forall (fun s => 0 < s) r -> 0 <= last r 0.
Proof.
  induction 1 as [| x [| y r] Hx Hr IH].
  - cbn. lra.
  - cbn. lra.
  - change (last (x :: y :: r) 0) with (last (y :: r) 0). exact IH.
Qed.

Lemma Rmax_put_le : forall K u, 0 <= K -> 0 <= u -> Rmax (K - u) 0 <= K.
Proof.
  intros K u HK Hu. unfold Rmax. destruct (Rle_dec (K - u) 0); lra.
Qed.

(** On positive prices every put payoff is at most the strike. *)
Lemma payoff_put_le_strike :
  forall option_nature K prices p,
    0 <= K -> Forall (Forall (fun s => 0 < s)) (rows prices) ->
    payoff option_nature "put" K prices = Value p ->
    Forall (fun x => x <= K) p.
Proof.
  intros option_nature K prices p HK Hpos H. unfold payoff in H.
  cbn [String.eqb Ascii.eqb Bool.eqb] in H.
  assert (B : forall s, Forall (fun u => 0 <= u) s ->
                Forall (fun x => x <= K) (np_maximum0 (map (fun x => K - x) s))).
  { intros s Hs. unfold np_maximum0. rewrite map_map. apply Forall_forall.
    intros x Hx. apply in_map_iff in Hx. destruct Hx as [u [<- Hu]].
    apply Rmax_put_le; [exact HK |]. now apply (proj1 (Forall_forall _ _) Hs). }
  destruct (option_nature =? "european")%string.
  - apply bind_value in H. destruct H as [s [Hs H]]. injection H as <-.
    apply B. unfold last_column in Hs.
    destruct (Nat.eqb (ncols prices) 0); [discriminate |]. injection Hs as <-.
    apply Forall_forall. intros u Hu. apply in_map_iff in Hu.
    destruct Hu as [r [<- Hr]]. apply last_nonneg.
    now apply (proj1 (Forall_forall _ _) Hpos).
  - destruct (option_nature =? "asiatic")%string; [| discriminate].
    apply bind_value in H. destruct H as [m [Hm H]]. injection H as <-.
    apply B. now apply (means_nonneg (rows prices)).
Qed.

(** X8: with a positive initial price and a non-negative strike, the price
    a completed run reports for a put is at most the discounted strike
    [K * exp(-rf T)]. *)
Theorem put_price_at_most_discounted_strike :
  forall (normal : nat -> nat -> R) (c : Inputs.t) (g : Globals.t),
    monte_carlo normal c = Value g ->
    Inputs.option_type c = "put" -> 0 < Inputs.S0 c -> 0 <= Inputs.K c ->
    Globals.option_price g <= Inputs.K c * exp (- Inputs.rf c * Inputs.T c).
Proof.
  intros normal c g H Hty HS HK.
  destruct (monte_carlo_inv normal c g H)
    as [rw [_ [Hdt [_ [_ [_ [Hprices [Hp Hpr]]]]]]]].
  rewrite Hty in Hp.
  assert (Hpos : Forall (Forall (fun s => 0 < s)) (rows (Globals.simulated_prices g))).
  { rewrite Hprices, simulated_prices_rows. apply Forall_forall. intros path Hin.
    apply in_map_iff in Hin. destruct Hin as [z [<- _]].
    apply cumprod_from_pos; [exact HS |].
    apply Forall_forall. intros f Hf. apply in_map_iff in Hf.
    destruct Hf as [x [<- _]]. apply step_factor_pos. }
  pose proof (payoff_put_le_strike _ _ _ _ HK Hpos Hp) as Hle.
  apply np_sum_le in Hle.
  apply option_price_inv in Hpr. destruct Hpr as [Hne ->].
  pose proof (INR_length_pos _ _ Hne) as Hn.
  pose proof (exp_pos (- Inputs.rf c * Inputs.T c)) as He.
  rewrite (Rmult_comm (Inputs.K c)). apply Rmult_le_compat_l; [lra |].
  apply (Rmult_le_reg_r (INR (length (Globals.payoff g)))); [exact Hn |].
  unfold Rdiv. rewrite Rmult_assoc, Rinv_l by lra. lra.
Qed.

Lemma option_price_nonnegative_witness :
  exists g : Globals.t,
    monte_carlo (fun i j => INR i - INR j)
      (Inputs.make 100 90 (/ 2) (/ 50) (/ 5) 4 (/ 4) "call" "asiatic")
    = Value g /\
    0 <= Globals.option_price g.
Proof.
  destruct (monte_carlo_runs (fun i j => INR i - INR j)
              (Inputs.make 100 90 (/ 2) (/ 50) (/ 5) 4 (/ 4) "call" "asiatic"))
    as [g [E _]];
    [reflexivity | reflexivity | cbn; lra | cbn; lra | cbn; lia |].
  exists g. split; [exact E | exact (option_price_nonnegative _ _ _ E)].
Defined.

Lemma put_price_at_most_discounted_strike_witness :
  exists g : Globals.t,
    monte_carlo (fun i j => INR i - INR j)
      (Inputs.make 100 90 (/ 2) (/ 50) (/ 5) 4 (/ 4) "put" "european")
    = Value g /\
    Globals.option_price g <= 90 * exp (- / 50 * / 2).
Proof.
  destruct (monte_carlo_runs (fun i j => INR i - INR j)
              (Inputs.make 100 90 (/ 2) (/ 50) (/ 5) 4 (/ 4) "put" "european"))
    as [g [E _]];
    [reflexivity | reflexivity | cbn; lra | cbn; lra | cbn; lia |].
  exists g. split; [exact E |].
  apply (put_price_at_most_discounted_strike _ _ _ E);
    [reflexivity | cbn; lra | cbn; lra].
Defined.

(** ** The price without volatility *)

Lemma np_mean_constant :
  forall (c : R) (l : list R),
    l <> [] -> Forall (fun x => x = c) l -> np_sum l / INR (length l) = c.
Proof.
  intros c l Hne Hl.
  assert (E : np_sum l = INR (length l) * c).
  { clear Hne. induction Hl as [| x l Hx Hl IH].
    - unfold np_sum. cbn. lra.
    - rewrite np_sum_cons, IH, Hx. cbn [length]. rewrite S_INR. lra. }
  rewrite E. field. apply Rgt_not_eq, INR_length_pos, Hne.
Qed.

Lemma option_price_constant :
  forall rf T (c : R) (p : list R),
    p <> [] -> Forall (fun x => x = c) p ->
    option_price rf T p = Value (exp (- rf * T) * c).
Proof.
  intros rf T c p Hne Hp. rewrite option_price_value by exact Hne.
  now rewrite (np_mean_constant c).
Qed.

(** X9: with [sigma = 0], at least one path and at least one time step, the
    computed price does not depend on the draws: it is the discounted payoff
    of the noise-free path, for calls and for puts, European or Asian. *)
Theorem zero_volatility_price :
  forall (S0 K T rf dt : R) (option_nature : string) (Z : ndarray),
    str_in option_nature ["european"; "asiatic"] = true ->
    0 <= dt -> well_shaped Z -> (1 <= ncols Z)%nat -> (1 <= nrows Z)%nat ->
    exists coeff : ndarray,
      coeff_multiplicateur rf 0 dt Z = Value coeff /\
      price_from_coeff S0 K T rf option_nature "call" coeff
      = Value (exp (- rf * T)
               * Rmax (underlying option_nature
                         (deterministic_path S0 rf dt (ncols Z)) - K) 0) /\
      price_from_coeff S0 K T rf option_nature "put" coeff
      = Value (exp (- rf * T)
               * Rmax (K - underlying option_nature
                             (deterministic_path S0 rf dt (ncols Z))) 0).
Proof.
  intros S0 K T rf dt option_nature Z Hna Hdt Hw Hc Hr.
  exists (elementwise (step_factor rf 0 dt) Z).
  split; [now apply coeff_multiplicateur_value |].
  destruct (simulated_prices_shape S0 rf 0 dt Z Hw) as [Pr [Pc Pw]].
  set (prices := simulated_prices S0 (elementwise (step_factor rf 0 dt) Z)) in *.
  assert (Hrows : Forall (fun path => path = deterministic_path S0 rf dt (ncols Z))
                         (rows prices)).
  { unfold prices. rewrite simulated_prices_rows. apply Forall_forall.
    intros path Hp. apply in_map_iff in Hp. destruct Hp as [z [<- Hz]].
    rewrite zero_volatility_row. f_equal.
    now apply (proj1 (Forall_forall _ _) Hw). }
  assert (Hne : rows prices <> []).
  { unfold nrows in Pr, Hr. destruct (rows prices); [cbn in Pr; lia | discriminate]. }
  assert (Hmap : forall f : list R -> R,
             map f (rows prices) <> [] /\
             Forall (fun x => x = f (deterministic_path S0 rf dt (ncols Z)))
                    (map f (rows prices))).
  { intro f. split.
    - destruct (rows prices); [contradiction | discriminate].
    - apply Forall_forall. intros x Hx. apply in_map_iff in Hx.
      destruct Hx as [path [<- Hp]].
      now rewrite (proj1 (Forall_forall _ _) Hrows path Hp). }
  unfold price_from_coeff. fold prices. split.
  - rewrite payoff_call_value by (try assumption; lia). cbn [bind].
    destruct (Hmap (fun path => Rmax (underlying option_nature path - K) 0)).
    now apply option_price_constant.
  - rewrite payoff_put_value by (try assumption; lia). cbn [bind].
    destruct (Hmap (fun path => Rmax (K - underlying option_nature path) 0)).
    now apply option_price_constant.
Qed.

Lemma zero_volatility_price_witness :
  exists coeff : ndarray,
    coeff_multiplicateur (/ 50) 0 (/ 4)
      {| rows := [[1; -1; 0]; [-1; 1; 0]]; ncols := 3 |} = Value coeff /\
    price_from_coeff 100 90 (3 / 4) (/ 50) "european" "call" coeff
    = Value (exp (- / 50 * (3 / 4))
             * Rmax (underlying "european"
                       (deterministic_path 100 (/ 50) (/ 4)
                          (ncols {| rows := [[1; -1; 0]; [-1; 1; 0]];
                                    ncols := 3 |})) - 90) 0) /\
    price_from_coeff 100 90 (3 / 4) (/ 50) "european" "put" coeff
    = Value (exp (- / 50 * (3 / 4))
             * Rmax (90 - underlying "european"
                            (deterministic_path 100 (/ 50) (/ 4)
                               (ncols {| rows := [[1; -1; 0]; [-1; 1; 0]];
                                         ncols := 3 |}))) 0).
Proof.
  apply (zero_volatility_price 100 90 (3 / 4) (/ 50) (/ 4) "european"
           {| rows := [[1; -1; 0]; [-1; 1; 0]]; ncols := 3 |});
    [reflexivity | lra | repeat constructor | cbn; lia | cbn; lia].
Defined.

(** * Every outcome of the run *)

(** ** Truncation below one *)

Lemma py_int_neg_iff : forall x, (py_int x < 0)%Z <-> x <= -1.
Proof.
  intro x. unfold py_int. destruct (Rle_dec 0 x) as [H | H].
  - split; [| lra]. intro Hn.
    pose proof (Zfloor_lub 0 x H). lia.
  - pose proof (Zceil_bound x) as [B1 B2]. split.
    + intro Hn. assert (Zceil x <= -1)%Z by lia.
      apply IZR_le in H0. lra.
    + intro Hx. assert (IZR (Zceil x) - 1 < -1) by lra.
      assert (IZR (Zceil x) < IZR 0) by lra. now apply lt_IZR.
Qed.

Lemma py_int_zero_iff : forall x, py_int x = 0%Z <-> -1 < x < 1.
Proof.
  intro x. unfold py_int. destruct (Rle_dec 0 x) as [H | H].
  - split.
    + intro E. pose proof (Zfloor_bound x) as B. rewrite E in B. lra.
    + intro B. apply Zfloor_eq. lra.
  - split.
    + intro E. pose proof (Zceil_bound x) as B. rewrite E in B. lra.
    + intro B. apply Zceil_eq. lra.
Qed.

Lemma py_int_pos_iff : forall x, (1 <= py_int x)%Z <-> 1 <= x.
Proof.
  intro x. split.
  - intro Hn. destruct (Rle_lt_dec 1 x) as [| Hx]; [assumption |].
    destruct (Rle_lt_dec x (-1)) as [Hm | Hm].
    + apply py_int_neg_iff in Hm. lia.
    + assert (py_int x = 0%Z) by (apply py_int_zero_iff; lra). lia.
  - intro Hx. rewrite py_int_nonneg by lra. now apply (Zfloor_lub 1).
Qed.

Lemma quot2_neg_iff : forall n : Z, (Z.quot n 2 < 0)%Z <-> (n <= -2)%Z.
Proof.
  intro n. split.
  - intro H. destruct (Z_lt_le_dec (-2) n) as [Hn |]; [| assumption].
    pose proof (quot2_nonneg n Hn). lia.
  - intro H. rewrite <- (Z.opp_involutive n), Z.quot_opp_l by lia.
    assert (1 <= Z.quot (- n) 2)%Z; [| lia].
    rewrite Z.quot_div_nonneg by lia. apply Z.div_le_lower_bound; lia.
Qed.

Lemma quot2_zero_iff : forall n : Z, Z.quot n 2 = 0%Z <-> (-2 < n < 2)%Z.
Proof.
  intro n. rewrite Z.quot_small_iff by lia. lia.
Qed.

Lemma quot2_pos_iff : forall n : Z, (1 <= Z.quot n 2)%Z <-> (2 <= n)%Z.
Proof.
  intro n. split.
  - intro H. destruct (Z_lt_le_dec n 2) as [Hn |]; [| assumption].
    destruct (Z_lt_le_dec (-2) n) as [Hm | Hm].
    + assert (Z.quot n 2 = 0%Z) by (apply quot2_zero_iff; lia). lia.
    + apply quot2_neg_iff in Hm. lia.
  - intro H. rewrite Z.quot_div_nonneg by lia. apply Z.div_le_lower_bound; lia.
Qed.

(** ** The decision table of the two cells *)

Lemma means_empty_rows :
  forall l, l <> [] -> Forall (fun r => length r = 0%nat) l ->
    means l = OutsideReals.
Proof.
  intros [| r l] Hne Hl; [contradiction |].
  inversion Hl as [| ? ? Hr _]; subst.
  destruct r; [reflexivity | discriminate].
Qed.

(** The run once the validation has passed and [dt] is not zero. *)
Lemma monte_carlo_after_n_steps :
  forall normal c,
    str_in (Inputs.option_type c) ["call"; "put"] = true ->
    str_in (Inputs.option_nature c) ["european"; "asiatic"] = true ->
    Inputs.dt c <> 0 ->
    monte_carlo normal c
    = (rw <- np_random_normal normal (Z.quot (Inputs.n_simul c) 2)
               (py_int (Inputs.T c / Inputs.dt c)) ;;
       coeff <- coeff_multiplicateur (Inputs.rf c) (Inputs.sigma c)
                  (Inputs.dt c) (antithetic_random_walks rw) ;;
       p <- payoff (Inputs.option_nature c) (Inputs.option_type c)
              (Inputs.K c) (simulated_prices (Inputs.S0 c) coeff) ;;
       price <- option_price (Inputs.rf c) (Inputs.T c) p ;;
       Value (Globals.make (py_int (Inputs.T c / Inputs.dt c))
                (antithetic_random_walks rw)
                (simulated_prices (Inputs.S0 c) coeff) p price)).
Proof.
  intros normal c Hty Hna Hdt. unfold monte_carlo.
  rewrite validation_value by assumption. cbn [bind].
  unfold n_steps. destruct (Req_dec_T (Inputs.dt c) 0); [contradiction |].
  cbn [bind]. unfold random_walks. now rewrite py_int_half.
Qed.

Lemma validation_invalid :
  forall c,
    str_in (Inputs.option_type c) ["call"; "put"] = false \/
    str_in (Inputs.option_nature c) ["european"; "asiatic"] = false ->
    validation c = Raised AssertionError.
Proof.
  intros c H. unfold validation.
  destruct (str_in (Inputs.option_type c) ["call"; "put"]); [| reflexivity].
  destruct H as [H | H]; [discriminate |]. now rewrite H.
Qed.

(** The outcome of the run, case by case on the inputs: [h] is
    [int(n_simul/2)] and [n] is [int(T/dt)]. *)
Lemma monte_carlo_outcome :
  forall normal c,
    let h := Z.quot (Inputs.n_simul c) 2 in
    let n := py_int (Inputs.T c / Inputs.dt c) in
    let valid :=
      str_in (Inputs.option_type c) ["call"; "put"]
      && str_in (Inputs.option_nature c) ["european"; "asiatic"] in
    (valid = false /\ monte_carlo normal c = Raised AssertionError) \/
    (valid = true /\ Inputs.dt c = 0 /\
     monte_carlo normal c = Raised ZeroDivisionError) \/
    (valid = true /\ Inputs.dt c <> 0 /\ ((h < 0)%Z \/ (n < 0)%Z) /\
     monte_carlo normal c = Raised ValueError) \/
    (valid = true /\ Inputs.dt c < 0 /\ (0 <= h)%Z /\ (0 <= n)%Z /\
     monte_carlo normal c = OutsideReals) \/
    (valid = true /\ 0 < Inputs.dt c /\ (0 <= h)%Z /\ n = 0%Z /\
     Inputs.option_nature c = "european" /\
     monte_carlo normal c = Raised IndexError) \/
    (valid = true /\ 0 < Inputs.dt c /\ (0 <= h)%Z /\ n = 0%Z /\
     Inputs.option_nature c = "asiatic" /\
     monte_carlo normal c = OutsideReals) \/
    (valid = true /\ 0 < Inputs.dt c /\ h = 0%Z /\ (1 <= n)%Z /\
     monte_carlo normal c = OutsideReals) \/
    (valid = true /\ 0 < Inputs.dt c /\ (1 <= h)%Z /\ (1 <= n)%Z /\
     exists g, monte_carlo normal c = Value g).
Proof.
  intros normal c h n valid.
  destruct valid eqn:Hvalid; subst valid.
  2:{ left. split; [reflexivity |]. apply andb_false_iff in Hvalid.
      unfold monte_carlo. now rewrite validation_invalid. }
  right. apply andb_true_iff in Hvalid. destruct Hvalid as [Hty Hna].
  destruct (Req_dec_T (Inputs.dt c) 0) as [Hd0 | Hd0].
  { left. repeat split; try assumption. unfold monte_carlo.
    rewrite validation_value by assumption. cbn [bind]. unfold n_steps.
    destruct (Req_dec_T (Inputs.dt c) 0); [reflexivity | contradiction]. }
  right. pose proof (monte_carlo_after_n_steps normal c Hty Hna Hd0) as E.
  fold h n in E.
  destruct (Z_lt_le_dec h 0) as [Hh | Hh];
    [| destruct (Z_lt_le_dec n 0) as [Hn | Hn]].
  1,2: left; repeat split; try assumption; [tauto || (now left) || (now right) |];
       rewrite E; unfold np_random_normal;
       destruct (Z.ltb_spec h 0); destruct (Z.ltb_spec n 0);
       try reflexivity; lia.
  right. rewrite np_random_normal_value in E by assumption. cbn [bind] in E.
  set (rw := {| rows := _; ncols := _ |}) in E.
  assert (Hrw : nrows rw = Z.to_nat h /\ ncols rw = Z.to_nat n /\ well_shaped rw).
  { unfold nrows, well_shaped, rw. cbn [rows ncols].
    rewrite length_map, length_seq. repeat split.
    apply Forall_forall. intros r Hr. apply in_map_iff in Hr.
    destruct Hr as [i [<- _]]. now rewrite length_map, length_seq. }
  destruct Hrw as [Rr [Rc Rw]].
  destruct (Rlt_dec (Inputs.dt c) 0) as [Hneg | Hneg].
  { left. repeat split; try assumption. rewrite E. unfold coeff_multiplicateur.
    destruct (Rlt_dec (Inputs.dt c) 0); [reflexivity | contradiction]. }
  right. assert (Hdt : 0 < Inputs.dt c) by lra.
  rewrite coeff_multiplicateur_value in E by lra. cbn [bind] in E.
  destruct (antithetic_shape rw Rw) as [Ar [Ac Aw]].
  destruct (simulated_prices_shape (Inputs.S0 c) (Inputs.rf c) (Inputs.sigma c)
              (Inputs.dt c) _ Aw) as [Pr [Pc Pw]].
  set (prices := simulated_prices _ _) in *.
  destruct (Z.eq_dec n 0) as [Hn0 | Hn0].
  - assert (Hc0 : ncols prices = 0%nat) by (rewrite Pc, Ac, Rc, Hn0; reflexivity).
    apply str_in_european_asiatic in Hna as Hna'. destruct Hna' as [Heu | Has].
    + left. repeat split; try assumption; try (now apply andb_true_iff).
      rewrite E, Heu. unfold payoff, last_column. rewrite Hc0.
      apply str_in_call_put in Hty. destruct Hty as [-> | ->]; reflexivity.
    + right. left. repeat split; try assumption; try (now apply andb_true_iff).
      rewrite E, Has.
      assert (Hm : np_mean_axis1 prices = OutsideReals
                   \/ np_mean_axis1 prices = Value []).
      { unfold np_mean_axis1. destruct (rows prices) as [| r l] eqn:Er.
        - now right.
        - left. apply means_empty_rows; [discriminate |].
          unfold well_shaped in Pw. rewrite Hc0, Er in Pw. exact Pw. }
      unfold payoff. cbn [String.eqb Ascii.eqb Bool.eqb].
      apply str_in_call_put in Hty.
      destruct Hm as [-> | ->], Hty as [-> | ->]; reflexivity.
  - assert (Hn1 : (1 <= n)%Z) by lia.
    destruct (payoff_runs (Inputs.option_nature c) (Inputs.option_type c)
                (Inputs.K c) prices Hty Hna Pw) as [p [Hp Lp]]; [lia |].
    rewrite Hp in E. cbn [bind] in E.
    right. right. destruct (Z.eq_dec h 0) as [Hh0 | Hh0].
    + left. repeat split; try assumption; try (now apply andb_true_iff).
      rewrite E. rewrite Pr, Ar, Rr, Hh0 in Lp. destruct p; [| discriminate].
      reflexivity.
    + right. repeat split; try assumption; try (now apply andb_true_iff); try lia.
      rewrite E. destruct p as [| x p].
      * rewrite Pr, Ar, Rr in Lp. cbn [length] in Lp. lia.
      * rewrite option_price_value by discriminate. cbn [bind]. eexists.
        reflexivity.
Qed.

Lemma quot2_nonneg_iff : forall n : Z, (0 <= Z.quot n 2)%Z <-> (-2 < n)%Z.
Proof.
  intro n. pose proof (quot2_neg_iff n). lia.
Qed.

Lemma py_int_nonneg_iff : forall x, (0 <= py_int x)%Z <-> -1 < x.
Proof.
  intro x. pose proof (py_int_neg_iff x) as H. split.
  - intro Hn. destruct (Rle_lt_dec x (-1)) as [Hx |]; [| assumption].
    apply H in Hx. lia.
  - intro Hx. destruct (Z_lt_le_dec (py_int x) 0) as [Hn |]; [| assumption].
    apply H in Hn. lra.
Qed.

(** Comparing [T / dt] with one is comparing [T] with [dt], for a positive
    [dt]. *)
Lemma quotient_vs_one :
  forall T dt, 0 < dt ->
    (1 <= T / dt <-> dt <= T) /\
    (T / dt < 1 <-> T < dt) /\
    (-1 < T / dt <-> - dt < T) /\
    (T / dt <= -1 <-> T <= - dt).
Proof.
  intros T dt Hdt.
  assert (E : T = T / dt * dt) by (field; lra).
  repeat split; intro H; try (rewrite E; nra);
    try (rewrite E in H; nra).
Qed.

(** The decision table in terms of the inputs. *)
Lemma monte_carlo_outcome_inputs :
  forall normal c,
    let ty := str_in (Inputs.option_type c) ["call"; "put"] in
    let na := str_in (Inputs.option_nature c) ["european"; "asiatic"] in
    let q := Inputs.T c / Inputs.dt c in
    ((ty = false \/ na = false) /\
     monte_carlo normal c = Raised AssertionError) \/
    ((ty = true /\ na = true) /\ Inputs.dt c = 0 /\
     monte_carlo normal c = Raised ZeroDivisionError) \/
    ((ty = true /\ na = true) /\ Inputs.dt c <> 0 /\
     ((Inputs.n_simul c <= -2)%Z \/ q <= -1) /\
     monte_carlo normal c = Raised ValueError) \/
    ((ty = true /\ na = true) /\ Inputs.dt c < 0 /\
     (-2 < Inputs.n_simul c)%Z /\ -1 < q /\
     monte_carlo normal c = OutsideReals) \/
    ((ty = true /\ na = true) /\ 0 < Inputs.dt c /\
     (-2 < Inputs.n_simul c)%Z /\ -1 < q < 1 /\
     Inputs.option_nature c = "european" /\
     monte_carlo normal c = Raised IndexError) \/
    ((ty = true /\ na = true) /\ 0 < Inputs.dt c /\
     (-2 < Inputs.n_simul c)%Z /\ -1 < q < 1 /\
     Inputs.option_nature c = "asiatic" /\
     monte_carlo normal c = OutsideReals) \/
    ((ty = true /\ na = true) /\ 0 < Inputs.dt c /\
     (-2 < Inputs.n_simul c < 2)%Z /\ 1 <= q /\
     monte_carlo normal c = OutsideReals) \/
    ((ty = true /\ na = true) /\ 0 < Inputs.dt c /\
     (2 <= Inputs.n_simul c)%Z /\ 1 <= q /\
     exists g, monte_carlo normal c = Value g).
Proof.
  intros normal c ty na q.
  pose proof (monte_carlo_outcome normal c) as M. cbv zeta in M.
  fold ty na q in M.
  rewrite andb_false_iff, andb_true_iff in M.
  rewrite quot2_neg_iff, quot2_nonneg_iff, quot2_zero_iff, quot2_pos_iff in M.
  rewrite py_int_neg_iff, py_int_nonneg_iff, py_int_zero_iff, py_int_pos_iff in M.
  exact M.
Qed.

(** The cases of the decision table, with the comparisons of [T / dt] made
    available next to those of [T] and [dt]. *)
Ltac run_cases normal c :=
  let M := fresh "M" in
  pose proof (monte_carlo_outcome_inputs normal c) as M; cbv zeta in M;
  destruct M as [M | [M | [M | [M | [M | [M | [M | M]]]]]]];
  decompose [and] M; clear M;
  try match goal with
      | Hdt : 0 < Inputs.dt c |- _ =>
          let Q := fresh "Q" in
          pose proof (quotient_vs_one (Inputs.T c) (Inputs.dt c) Hdt) as Q;
          decompose [and] Q; clear Q
      end.

Ltac outcome_clash :=
  match goal with
  | H1 : monte_carlo ?n ?c = _, H2 : monte_carlo ?n ?c = _ |- _ =>
      rewrite H1 in H2; try discriminate H2
  | H1 : monte_carlo ?n ?c = _, H2 : exists g, monte_carlo ?n ?c = Value g |- _ =>
      let g := fresh "g" in
      destruct H2 as [g H2]; rewrite H1 in H2; try discriminate H2
  end.

(** X10: the run ends with a real price exactly when both option strings
    are valid, [0 < dt <= T] and [n_simul >= 2]. *)
Theorem run_completes_iff :
  forall (normal : nat -> nat -> R) (c : Inputs.t),
    (exists g : Globals.t, monte_carlo normal c = Value g) <->
    str_in (Inputs.option_type c) ["call"; "put"] = true /\
    str_in (Inputs.option_nature c) ["european"; "asiatic"] = true /\
    0 < Inputs.dt c /\ Inputs.dt c <= Inputs.T c /\ (2 <= Inputs.n_simul c)%Z.
Proof.
  intros normal c. split.
  - intro Hg. run_cases normal c; try (outcome_clash; fail).
    repeat split; try assumption; tauto.
  - intros [Hty [Hna [Hdt [HT Hs]]]].
    run_cases normal c; try assumption;
      try (exfalso; intuition (try congruence; try lra; try lia); fail).
Qed.

(** On inputs of the asserted types, the run raises [AssertionError]
    exactly when [option_type] is not ["call"] or ["put"], or
    [option_nature] is not ["european"] or ["asiatic"]. *)
Lemma assertion_error_iff :
  forall (normal : nat -> nat -> R) (c : Inputs.t),
    monte_carlo normal c = Raised AssertionError <->
    str_in (Inputs.option_type c) ["call"; "put"] = false \/
    str_in (Inputs.option_nature c) ["european"; "asiatic"] = false.
Proof.
  intros normal c. split.
  - intro H. run_cases normal c; try (outcome_clash; fail). assumption.
  - intro H. run_cases normal c; try assumption;
      exfalso; intuition congruence.
Qed.

(** X12: the run raises [ZeroDivisionError] exactly when the option strings
    are valid and [dt] is zero. *)
Theorem zero_division_error_iff :
  forall (normal : nat -> nat -> R) (c : Inputs.t),
    monte_carlo normal c = Raised ZeroDivisionError <->
    str_in (Inputs.option_type c) ["call"; "put"] = true /\
    str_in (Inputs.option_nature c) ["european"; "asiatic"] = true /\
    Inputs.dt c = 0.
Proof.
  intros normal c. split.
  - intro H. run_cases normal c; try (outcome_clash; fail). tauto.
  - intros [Hty [Hna Hdt]]. run_cases normal c; try assumption;
      exfalso; intuition (try congruence; try lra).
Qed.

(** X13: the run raises [ValueError] exactly when the option strings are
    valid, [dt] is not zero and a dimension of the random matrix is
    negative: [n_simul <= -2] or [T / dt <= -1]. *)
Theorem value_error_iff :
  forall (normal : nat -> nat -> R) (c : Inputs.t),
    monte_carlo normal c = Raised ValueError <->
    str_in (Inputs.option_type c) ["call"; "put"] = true /\
    str_in (Inputs.option_nature c) ["european"; "asiatic"] = true /\
    Inputs.dt c <> 0 /\
    ((Inputs.n_simul c <= -2)%Z \/ Inputs.T c / Inputs.dt c <= -1).
Proof.
  intros normal c. split.
  - intro H. run_cases normal c; try (outcome_clash; fail). tauto.
  - intros [Hty [Hna [Hdt Hneg]]]. run_cases normal c; try assumption;
      exfalso; intuition (try congruence; try lra; try lia).
Qed.

(** X14: for a positive [dt], the run raises [IndexError] exactly when the
    option strings are valid, the option is European, there is no time step
    ([-dt < T < dt]) and [n_simul > -2]. *)
Theorem index_error_iff :
  forall (normal : nat -> nat -> R) (c : Inputs.t),
    0 < Inputs.dt c ->
    (monte_carlo normal c = Raised IndexError <->
     str_in (Inputs.option_type c) ["call"; "put"] = true /\
     Inputs.option_nature c = "european" /\
     - Inputs.dt c < Inputs.T c < Inputs.dt c /\
     (-2 < Inputs.n_simul c)%Z).
Proof.
  intros normal c Hpos. split.
  - intro H. run_cases normal c; try (outcome_clash; fail).
    repeat split; try assumption; tauto.
  - intros [Hty [Hna [HT Hs]]].
    assert (Hna' : str_in (Inputs.option_nature c) ["european"; "asiatic"] = true)
      by now rewrite Hna.
    run_cases normal c; try assumption;
      exfalso; intuition (try congruence; try lra; try lia).
Qed.

Lemma index_error_iff_witness :
  monte_carlo (fun i j => INR i - INR j)
    (Inputs.make 100 90 (/ 2) (/ 50) (/ 5) 4 1 "call" "european")
  = Raised IndexError <->
  str_in "call" ["call"; "put"] = true /\
  "european" = "european" /\
  - 1 < / 2 < 1 /\
  (-2 < 4)%Z.
Proof.
  apply (index_error_iff (fun i j => INR i - INR j)
           (Inputs.make 100 90 (/ 2) (/ 50) (/ 5) 4 1 "call" "european")).
  cbn. lra.
Defined.

(** X15: the run never raises [NameError]: once the validation has passed,
    one branch of the [if]/[elif] chain assigns [payoff]. *)
Theorem payoff_always_assigned :
  forall (normal : nat -> nat -> R) (c : Inputs.t),
    monte_carlo normal c <> Raised NameError.
Proof.
  intros normal c H. run_cases normal c; outcome_clash.
Qed.

(** X16: for a positive [dt], the run ends on [nan] without raising
    exactly when the option strings are valid, [n_simul > -2], and either
    the option is Asian with no time step ([-dt < T < dt]) or no path is
    simulated ([n_simul < 2]) while [dt <= T]. *)
Theorem nan_price_iff :
  forall (normal : nat -> nat -> R) (c : Inputs.t),
    0 < Inputs.dt c ->
    (monte_carlo normal c = OutsideReals <->
     str_in (Inputs.option_type c) ["call"; "put"] = true /\
     str_in (Inputs.option_nature c) ["european"; "asiatic"] = true /\
     (-2 < Inputs.n_simul c)%Z /\
     ((Inputs.option_nature c = "asiatic" /\
       - Inputs.dt c < Inputs.T c < Inputs.dt c) \/
      ((Inputs.n_simul c < 2)%Z /\ Inputs.dt c <= Inputs.T c))).
Proof.
  intros normal c Hpos. split.
  - intro H. run_cases normal c; try (outcome_clash; fail);
      try (exfalso; lra);
      repeat split; try assumption; try tauto; try lia.
  - intros [Hty [Hna [Hs Hcase]]].
    run_cases normal c; try assumption;
      exfalso; intuition (try congruence; try lra; try lia).
Qed.

Lemma nan_price_iff_witness :
  monte_carlo (fun i j => INR i - INR j)
    (Inputs.make 100 90 (/ 2) (/ 50) (/ 5) 4 1 "call" "asiatic")
  = OutsideReals <->
  str_in "call" ["call"; "put"] = true /\
  str_in "asiatic" ["european"; "asiatic"] = true /\
  (-2 < 4)%Z /\
  (("asiatic" = "asiatic" /\ - 1 < / 2 < 1) \/ ((4 < 2)%Z /\ 1 <= / 2)).
Proof.
  apply (nan_price_iff (fun i j => INR i - INR j)
           (Inputs.make 100 90 (/ 2) (/ 50) (/ 5) 4 1 "call" "asiatic")).
  cbn. lra.
Defined.

(** * Further properties of the Black-Scholes cell *)

Lemma bs_d1_scale :
  forall k S0 K T rf sigma, 0 < k -> K <> 0 ->
    bs_d1 (k * S0) (k * K) T rf sigma = bs_d1 S0 K T rf sigma.
Proof.
  intros k S0 K T rf sigma Hk HK. unfold bs_d1.
  replace (k * S0 / (k * K)) with (S0 / K) by (field; lra). reflexivity.
Qed.

Lemma bs_d2_scale :
  forall k S0 K T rf sigma, 0 < k -> K <> 0 ->
    bs_d2 (k * S0) (k * K) T rf sigma = bs_d2 S0 K T rf sigma.
Proof.
  intros k S0 K T rf sigma Hk HK. unfold bs_d2.
  now rewrite bs_d1_scale.
Qed.

(** X17: the Black-Scholes price is homogeneous of degree one: multiplying
    the initial price and the strike by the same [k > 0] multiplies the
    returned price by [k], and leaves an exception or an [inf]/[nan] result
    as it is. *)
Theorem black_scholes_scales_with_asset_and_strike :
  forall (k S0 K T rf sigma : R) (option_type : string),
    0 < k ->
    black_scholes_option (k * S0) (k * K) T rf sigma option_type
    = outcome_map (Rmult k) (black_scholes_option S0 K T rf sigma option_type).
Proof.
  intros k S0 K T rf sigma option_type Hk. unfold black_scholes_option.
  destruct (Req_dec_T K 0) as [HK | HK].
  - destruct (Req_dec_T (k * K) 0) as [| HkK]; [reflexivity |].
    exfalso. apply HkK. rewrite HK. ring.
  - destruct (Req_dec_T (k * K) 0) as [HkK |].
    + exfalso. apply Rmult_integral in HkK. destruct HkK; [lra | contradiction].
    + rewrite bs_d1_scale, bs_d2_scale by assumption.
      destruct (option_type =? "call")%string.
      * destruct (norm_cdf_np (bs_d1 S0 K T rf sigma)) as [n1 |];
          [| reflexivity].
        destruct (norm_cdf_np (bs_d2 S0 K T rf sigma)) as [n2 |];
          [| reflexivity].
        cbn [outcome_map]. f_equal. ring.
      * destruct (option_type =? "put")%string; [| reflexivity].
        destruct (norm_cdf_np (np_neg (bs_d2 S0 K T rf sigma))) as [m2 |];
          [| reflexivity].
        destruct (norm_cdf_np (np_neg (bs_d1 S0 K T rf sigma))) as [m1 |];
          [| reflexivity].
        cbn [outcome_map]. f_equal. ring.
Qed.

Lemma black_scholes_scales_with_asset_and_strike_witness :
  black_scholes_option (2 * 100) (2 * 90) (/ 2) (/ 50) (/ 5) "call"
  = outcome_map (Rmult 2)
      (black_scholes_option 100 90 (/ 2) (/ 50) (/ 5) "call").
Proof.
  apply (black_scholes_scales_with_asset_and_strike 2 100 90 (/ 2) (/ 50)
           (/ 5) "call").
  lra.
Defined.

(** X18: [black_scholes_option] raises [ZeroDivisionError] exactly when the
    strike is zero, whatever the option type, and [ValueError] exactly when
    the strike is not zero and the option type is neither ["call"] nor
    ["put"], whatever [d1] evaluated to; it raises nothing else. *)
Theorem black_scholes_option_errors :
  forall (S0 K T rf sigma : R) (option_type : string),
    (black_scholes_option S0 K T rf sigma option_type
     = Raised ZeroDivisionError <-> K = 0) /\
    (black_scholes_option S0 K T rf sigma option_type = Raised ValueError <->
     K <> 0 /\ str_in option_type ["call"; "put"] = false) /\
    (forall e, black_scholes_option S0 K T rf sigma option_type = Raised e ->
               e = ZeroDivisionError \/ e = ValueError).
Proof.
  intros S0 K T rf sigma option_type.
  split; [| split].
  - split; [| apply black_scholes_option_zero_strike]. intro H.
    apply black_scholes_option_raises in H.
    destruct H as [[H _] | [_ H]]; [exact H | discriminate].
  - split; [| intros [HK Hty]; now apply black_scholes_option_unknown_type].
    intro H. destruct (Req_dec_T K 0) as [HK | HK].
    + rewrite (black_scholes_option_zero_strike _ _ _ _ _ _ HK) in H.
      discriminate.
    + split; [exact HK |]. apply black_scholes_option_raises in H.
      destruct H as [[H _] | [H _]]; [contradiction | exact H].
  - intros e H. apply black_scholes_option_raises in H.
    destruct H as [[_ ->] | [_ ->]]; [now left | now right].
Qed.

(** * The scraping notebook *)

(** ** Tickers *)

Example ticker_of_paris_link : ticker_of_href "/cours/1rPALAGP/" = "ALAGP.PA".
Proof. reflexivity. Qed.

Example ticker_of_otc_link : ticker_of_href "/cours/1rPMLPLC-OTC/" = "MLPLC.PA".
Proof. reflexivity. Qed.

Lemma occurs_cons :
  forall ch c s, occurs ch (String c s) <-> c = ch \/ occurs ch s.
Proof. intros. unfold occurs. cbn. tauto. Qed.

Lemma occurs_append :
  forall ch a b, occurs ch (a ++ b) <-> occurs ch a \/ occurs ch b.
Proof.
  intros ch a b. induction a as [| c a IH].
  - cbn [append]. unfold occurs. cbn. tauto.
  - cbn [append]. rewrite !occurs_cons, IH. tauto.
Qed.

Lemma string_length_append :
  forall a b, String.length (a ++ b) = (String.length a + String.length b)%nat.
Proof.
  intros a b. induction a as [| c a IH]; [reflexivity |].
  cbn. now rewrite IH.
Qed.

Lemma string_append_assoc : forall a b c : string, (a ++ b) ++ c = a ++ (b ++ c).
Proof.
  intros a b c. induction a as [| x a IH]; [reflexivity |].
  cbn. now rewrite IH.
Qed.

(** Text without a dash holds no occurrence of ["-OTC"]: it is copied. *)
Lemma py_replace_otc_append :
  forall a b, ~ occurs "-" a ->
    py_replace "-OTC" "" (a ++ b) = a ++ py_replace "-OTC" "" b.
Proof.
  intros a b. unfold py_replace. induction a as [| c a IH]; intro Ha.
  - reflexivity.
  - rewrite occurs_cons in Ha. cbn [append py_replace_from prefix].
    destruct (ascii_dec "-" c) as [E | _]; [exfalso; apply Ha; left; now symmetry |].
    rewrite IH by tauto. reflexivity.
Qed.

Lemma py_replace_otc_none :
  forall s, ~ occurs "-" s -> py_replace "-OTC" "" s = s.
Proof.
  intros s Hs. induction s as [| c s IH]; [reflexivity |].
  rewrite occurs_cons in Hs. unfold py_replace in *.
  cbn [py_replace_from prefix].
  destruct (ascii_dec "-" c) as [E | _]; [exfalso; apply Hs; left; now symmetry |].
  rewrite IH by tauto. reflexivity.
Qed.

Lemma index_first_P :
  forall p rest, ~ occurs "P" p ->
    index 0 "P" (p ++ String "P" rest) = Some (String.length p).
Proof.
  intros p rest. induction p as [| c p IH]; intro Hp.
  - cbn [append index prefix]. destruct (ascii_dec "P" "P"); [| contradiction].
    destruct rest; reflexivity.
  - rewrite occurs_cons in Hp. cbn [append index prefix].
    destruct (ascii_dec "P" c) as [E | _]; [exfalso; apply Hp; left; now symmetry |].
    rewrite IH by tauto. reflexivity.
Qed.

Lemma index_no_P : forall s, ~ occurs "P" s -> index 0 "P" s = None.
Proof.
  intros s. induction s as [| c s IH]; intro Hs; [reflexivity |].
  rewrite occurs_cons in Hs. cbn [index prefix].
  destruct (ascii_dec "P" c) as [E | _]; [exfalso; apply Hs; left; now symmetry |].
  rewrite IH by tauto. reflexivity.
Qed.

Lemma substring_skip :
  forall p k m s, substring (String.length p + k) m (p ++ s) = substring k m s.
Proof.
  intros p k m s. induction p as [| c p IH]; [reflexivity |].
  cbn [String.length Nat.add append substring]. exact IH.
Qed.

Lemma substring_take :
  forall a b, substring 0 (String.length a) (a ++ b) = a.
Proof.
  intros a b. induction a as [| c a IH].
  - cbn. destruct b; reflexivity.
  - cbn [String.length append substring]. now rewrite IH.
Qed.

(** X19: for a link made of a prefix without [P], a [P], a symbol and a
    closing slash, with or without the ["-OTC"] mark and with no other dash,
    the ticker is the symbol followed by [".PA"]. *)
Theorem ticker_of_link :
  forall (p sym tail : string),
    ~ occurs "P" p -> ~ occurs "-" p -> ~ occurs "-" sym ->
    tail = "/" \/ tail = "-OTC/" ->
    ticker_of_href (p ++ "P" ++ sym ++ tail) = sym ++ ".PA".
Proof.
  intros p sym tail HP Hp Hsym Htail. unfold ticker_of_href.
  assert (Href : py_replace "-OTC" "" (p ++ "P" ++ sym ++ tail)
                 = p ++ "P" ++ sym ++ "/").
  { rewrite <- !string_append_assoc.
    rewrite py_replace_otc_append.
    - destruct Htail as [-> | ->]; reflexivity.
    - rewrite !occurs_append. intros [[H | H] | H]; try tauto.
      unfold occurs in H. cbn in H. destruct H as [H | []]. discriminate. }
  rewrite Href. unfold py_find.
  change (p ++ "P" ++ sym ++ "/") with (p ++ String "P" (sym ++ "/")).
  rewrite index_first_P by exact HP.
  f_equal. unfold py_slice. rewrite string_length_append.
  cbn [String.length]. rewrite string_length_append. cbn [String.length].
  set (lp := String.length p). set (ls := String.length sym).
  destruct (Z.ltb_spec (Z.of_nat lp + 1) 0) as [| _]; [lia |].
  destruct (Z.ltb_spec (-1) 0) as [_ |]; [| lia].
  replace (Z.to_nat (Z.min (Z.of_nat lp + 1) (Z.of_nat (lp + S (ls + 1)))))
    with (lp + 1)%nat by lia.
  replace (Z.to_nat (Z.max (-1 + Z.of_nat (lp + S (ls + 1))) 0
                     - Z.min (Z.of_nat lp + 1) (Z.of_nat (lp + S (ls + 1)))))
    with ls by lia.
  unfold lp, ls. rewrite substring_skip. cbn [substring].
  apply substring_take.
Qed.

Lemma ticker_of_link_witness :
  ticker_of_href ("/cours/1rE" ++ "P" ++ "SOLB" ++ "-OTC/") = "SOLB" ++ ".PA".
Proof.
  apply (ticker_of_link "/cours/1rE" "SOLB" "-OTC/");
    [unfold occurs; cbn; intuition discriminate
    | unfold occurs; cbn; intuition discriminate
    | unfold occurs; cbn; intuition discriminate
    | now right].
Defined.

(** X20: a link without [P] is not rejected: [find] answers [-1] and the
    ticker is the link without its last character, followed by [".PA"]. *)
Theorem ticker_of_link_without_P :
  forall href : string,
    ~ occurs "P" href -> ~ occurs "-" href ->
    ticker_of_href href
    = substring 0 (String.length href - 1) href ++ ".PA".
Proof.
  intros href HP Hd. unfold ticker_of_href.
  rewrite py_replace_otc_none by exact Hd.
  unfold py_find. rewrite index_no_P by exact HP.
  f_equal. unfold py_slice.
  change (-1 + 1)%Z with 0%Z. change (0 <? 0)%Z with false.
  change (-1 <? 0)%Z with true. cbv iota.
  f_equal; lia.
Qed.

Lemma ticker_of_link_without_P_witness :
  ticker_of_href "/cours/abc/"
  = substring 0 (String.length "/cours/abc/" - 1) "/cours/abc/" ++ ".PA".
Proof.
  apply (ticker_of_link_without_P "/cours/abc/");
    unfold occurs; cbn; intuition discriminate.
Defined.

(** ** The four lists *)

Lemma add_entreprise_names :
  forall lookup sector vols st counter name href,
    length (list_ticker st) = length (list_name st) ->
    length (list_secteur st) = length (list_name st) ->
    let st' := add_entreprise lookup sector vols st counter name href in
    length (list_ticker st') = length (list_name st') /\
    length (list_secteur st') = length (list_name st') /\
    length (list_name st')
    = (length (list_name st)
       + if lookup (ticker_of_href href) then 1 else 0)%nat.
Proof.
  intros lookup sector vols st counter name href Ht Hs. unfold add_entreprise.
  destruct (lookup (ticker_of_href href)); [| cbn; lia].
  destruct (nth_error vols counter); cbn [list_name list_ticker list_secteur];
    rewrite !length_app; cbn [length]; lia.
Qed.

Lemma add_entreprise_gap :
  forall lookup sector vols st counter name href,
    gap (add_entreprise lookup sector vols st counter name href)
    = (gap st
       + if lookup (ticker_of_href href) && (length vols <=? counter)%nat
         then 1 else 0)%Z.
Proof.
  intros lookup sector vols st counter name href. unfold add_entreprise, gap.
  destruct (lookup (ticker_of_href href)); cbn [andb]; [| lia].
  destruct (Nat.leb_spec (length vols) counter) as [Hc | Hc].
  - apply nth_error_None in Hc. rewrite Hc. cbn [list_name list_volume].
    rewrite length_app. cbn [length]. lia.
  - destruct (nth_error vols counter) eqn:E.
    + cbn [list_name list_volume]. rewrite !length_app. cbn [length]. lia.
    + apply nth_error_None in E. lia.
Qed.

Lemma add_entreprises_names :
  forall lookup sector vols entreprises counter st,
    length (list_ticker st) = length (list_name st) ->
    length (list_secteur st) = length (list_name st) ->
    let st' := add_entreprises lookup sector vols counter entreprises st in
    length (list_ticker st') = length (list_name st') /\
    length (list_secteur st') = length (list_name st') /\
    length (list_name st')
    = (length (list_name st)
       + length (filter (fun e => lookup (ticker_of_href (snd e))) entreprises))%nat.
Proof.
  intros lookup sector vols entreprises.
  induction entreprises as [| [name href] rest IH]; intros counter st Ht Hs.
  - cbn. lia.
  - cbn [add_entreprises filter snd].
    destruct (add_entreprise_names lookup sector vols st counter name href Ht Hs)
      as [Ht' [Hs' Hn']].
    destruct (IH (S counter) _ Ht' Hs') as [Ht2 [Hs2 Hn2]].
    repeat split; try assumption. rewrite Hn2, Hn'.
    destruct (lookup (ticker_of_href href)); cbn [length]; lia.
Qed.

Lemma add_entreprises_gap_le :
  forall lookup sector vols entreprises counter st,
    (gap st <= gap (add_entreprises lookup sector vols counter entreprises st))%Z.
Proof.
  intros lookup sector vols entreprises.
  induction entreprises as [| [name href] rest IH]; intros counter st.
  - cbn. lia.
  - cbn [add_entreprises]. etransitivity; [| apply IH].
    rewrite add_entreprise_gap.
    destruct (lookup (ticker_of_href href) && (length vols <=? counter)%nat); lia.
Qed.

(** The gap is unchanged exactly when every company whose lookup succeeds
    has a volume cell at its index. *)
Lemma add_entreprises_gap_eq_iff :
  forall lookup sector vols entreprises counter st,
    gap (add_entreprises lookup sector vols counter entreprises st) = gap st <->
    (forall i name href,
        nth_error entreprises i = Some (name, href) ->
        lookup (ticker_of_href href) = true ->
        (counter + i < length vols)%nat).
Proof.
  intros lookup sector vols entreprises.
  induction entreprises as [| [name href] rest IH]; intros counter st.
  - cbn [add_entreprises]. split; [| reflexivity].
    intros _ i name href H. destruct i; discriminate.
  - cbn [add_entreprises].
    pose proof (add_entreprise_gap lookup sector vols st counter name href) as G1.
    pose proof (add_entreprises_gap_le lookup sector vols rest (S counter)
                  (add_entreprise lookup sector vols st counter name href)) as G2.
    specialize (IH (S counter)
                  (add_entreprise lookup sector vols st counter name href)).
    split.
    + intros E i name' href' Hi Hl.
      destruct (lookup (ticker_of_href href) && (length vols <=? counter)%nat)
        eqn:Eb; [lia |].
      destruct i as [| i].
      * cbn in Hi. injection Hi as <- <-. rewrite Hl in Eb. cbn [andb] in Eb.
        apply Nat.leb_gt in Eb. lia.
      * cbn in Hi. assert (S counter + i < length vols)%nat; [| lia].
        apply (proj1 IH) with (name := name') (href := href'); [lia | exact Hi | exact Hl].
    + intro H.
      assert (Eb : lookup (ticker_of_href href) && (length vols <=? counter)%nat
                   = false).
      { destruct (lookup (ticker_of_href href)) eqn:El; [| reflexivity].
        cbn [andb]. apply Nat.leb_gt.
        specialize (H 0%nat name href eq_refl El). lia. }
      rewrite Eb in G1.
      assert (E2 : gap (add_entreprises lookup sector vols (S counter) rest
                          (add_entreprise lookup sector vols st counter name href))
                   = gap (add_entreprise lookup sector vols st counter name href)).
      { apply (proj2 IH). intros i name' href' Hi Hl.
        specialize (H (S i) name' href' Hi Hl). lia. }
      lia.
Qed.

(** X21: starting from four lists of equal length, a page leaves them of
    equal length exactly when every company whose lookup succeeds has a
    volume cell at its index; otherwise the list of volumes ends up shorter
    than the other three. *)
Theorem scrape_page_aligned_iff :
  forall (lookup : string -> bool) (sector : string) (vols : list Z)
         (entreprises : list (string * string)) (st : scraped),
    aligned st ->
    (aligned (scrape_page lookup sector vols entreprises st) <->
     (forall i name href,
         nth_error entreprises i = Some (name, href) ->
         lookup (ticker_of_href href) = true ->
         (i < length vols)%nat)) /\
    (length (list_volume (scrape_page lookup sector vols entreprises st))
     <= length (list_name (scrape_page lookup sector vols entreprises st)))%nat.
Proof.
  intros lookup sector vols entreprises st [Ht [Hs Hv]]. unfold scrape_page.
  destruct (add_entreprises_names lookup sector vols entreprises 0 st Ht Hs)
    as [Ht' [Hs' _]].
  pose proof (add_entreprises_gap_le lookup sector vols entreprises 0 st) as Hle.
  pose proof (add_entreprises_gap_eq_iff lookup sector vols entreprises 0 st) as Hiff.
  set (st' := add_entreprises lookup sector vols 0 entreprises st) in *.
  assert (G0 : gap st = 0%Z) by (unfold gap; lia).
  split; [| unfold gap in *; lia].
  split.
  - intros [_ [_ Hv']]. apply (proj1 Hiff). unfold gap in *. lia.
  - intro H. pose proof (proj2 Hiff H) as E.
    repeat split; try assumption. unfold gap in *. lia.
Qed.

Lemma scrape_page_aligned_iff_witness :
  (aligned
     (scrape_page (fun _ => true) "Technologies" [12715%Z; 160%Z]
        [("AGRIPOWER", "/cours/1rPALAGP/"); ("ECOSLOPS", "/cours/1rPALESA/")]
        (mk_scraped [] [] [] [])) <->
   (forall i name href,
       nth_error
         [("AGRIPOWER", "/cours/1rPALAGP/"); ("ECOSLOPS", "/cours/1rPALESA/")] i
       = Some (name, href) ->
       (fun _ : string => true) (ticker_of_href href) = true ->
       (i < length [12715%Z; 160%Z])%nat)) /\
  (length
     (list_volume
        (scrape_page (fun _ => true) "Technologies" [12715%Z; 160%Z]
           [("AGRIPOWER", "/cours/1rPALAGP/"); ("ECOSLOPS", "/cours/1rPALESA/")]
           (mk_scraped [] [] [] [])))
   <= length
        (list_name
           (scrape_page (fun _ => true) "Technologies" [12715%Z; 160%Z]
              [("AGRIPOWER", "/cours/1rPALAGP/"); ("ECOSLOPS", "/cours/1rPALESA/")]
              (mk_scraped [] [] [] []))))%nat.
Proof.
  apply (scrape_page_aligned_iff (fun _ => true) "Technologies"
           [12715%Z; 160%Z]
           [("AGRIPOWER", "/cours/1rPALAGP/"); ("ECOSLOPS", "/cours/1rPALESA/")]
           (mk_scraped [] [] [] [])).
  repeat split.
Defined.

(** X22: a page adds one name, one ticker and one sector for each company
    whose lookup succeeds, and none for the others. *)
Theorem scrape_page_rows_added :
  forall (lookup : string -> bool) (sector : string) (vols : list Z)
         (entreprises : list (string * string)) (st : scraped),
    length (list_ticker st) = length (list_name st) ->
    length (list_secteur st) = length (list_name st) ->
    let st' := scrape_page lookup sector vols entreprises st in
    length (list_ticker st') = length (list_name st') /\
    length (list_secteur st') = length (list_name st') /\
    length (list_name st')
    = (length (list_name st)
       + length (filter (fun e => lookup (ticker_of_href (snd e)))
                        entreprises))%nat.
Proof.
  intros lookup sector vols entreprises st Ht Hs. unfold scrape_page.
  now apply add_entreprises_names.
Qed.

Lemma scrape_page_rows_added_witness :
  let st' :=
    scrape_page (fun t => (t =? "ALAGP.PA")%string) "Technologies" [12715%Z]
      [("AGRIPOWER", "/cours/1rPALAGP/"); ("ECOSLOPS", "/cours/1rPALESA/")]
      (mk_scraped [] [] [] []) in
  length (list_ticker st') = length (list_name st') /\
  length (list_secteur st') = length (list_name st') /\
  length (list_name st')
  = (length (list_name (mk_scraped [] [] [] []))
     + length (filter (fun e => (ticker_of_href (snd e) =? "ALAGP.PA")%string)
                 [("AGRIPOWER", "/cours/1rPALAGP/");
                  ("ECOSLOPS", "/cours/1rPALESA/")]))%nat.
Proof.
  apply (scrape_page_rows_added (fun t => (t =? "ALAGP.PA")%string)
           "Technologies" [12715%Z]
           [("AGRIPOWER", "/cours/1rPALAGP/"); ("ECOSLOPS", "/cours/1rPALESA/")]
           (mk_scraped [] [] [] [])); reflexivity.
Defined.

(** * The step count on doubles *)

Example n_steps_double_weekly :
  n_steps_double 0.5 (1 / 52) = Value 26%Z.
Proof. vm_compute. reflexivity. Qed.

Example n_steps_double_daily :
  n_steps_double 0.5 (1 / 252) = Value 126%Z.
Proof. vm_compute. reflexivity. Qed.

Example n_steps_double_tenths :
  n_steps_double (3 / 10) (1 / 10) = Value 2%Z.
Proof. vm_compute. reflexivity. Qed.

Example n_steps_double_zero_step :
  n_steps_double 0.5 0 = Raised ZeroDivisionError.
Proof. vm_compute. reflexivity. Qed.

Lemma Zfloor_quotient :
  forall m d : Z, (0 < d)%Z -> Zfloor (IZR m / IZR d) = (m / d)%Z.
Proof.
  intros m d Hd. apply Zfloor_eq.
  pose proof (Z.div_mod m d ltac:(lia)) as E.
  pose proof (Z.mod_pos_bound m d Hd) as [B1 B2].
  assert (Hd' : 0 < IZR d) by now apply IZR_lt.
  assert (Em : IZR m = IZR d * IZR (m / d) + IZR (m mod d)).
  { rewrite E at 1. now rewrite plus_IZR, mult_IZR. }
  apply IZR_le in B1. apply IZR_lt in B2.
  split.
  - apply (Rmult_le_reg_r (IZR d)); [exact Hd' |].
    unfold Rdiv. rewrite Rmult_assoc, Rinv_l by lra. lra.
  - apply (Rmult_lt_reg_r (IZR d)); [exact Hd' |].
    unfold Rdiv. rewrite Rmult_assoc, Rinv_l by lra. lra.
Qed.

(** [int] on a positive real and on its opposite. *)
Lemma py_int_of_positive :
  forall (v : R) (a : Z), 0 < v -> Zfloor v = a ->
    py_int v = a /\ py_int (- v) = (- a)%Z.
Proof.
  intros v a Hv Ha. unfold py_int. split.
  - destruct (Rle_dec 0 v); [exact Ha | lra].
  - destruct (Rle_dec 0 (- v)); [lra |]. rewrite ZceilN. now rewrite Ha.
Qed.

(** On a finite double, [int] is the truncation of the number the double
    stands for. *)
Lemma py_int_double_spec :
  forall x : float,
    double_finite x = true ->
    py_int_double x = Value (py_int (double_value x)).
Proof.
  intros x Hx. unfold double_finite, py_int_double, double_value in *.
  destruct (Prim2SF x) as [s | s | | s m e]; try discriminate.
  - cbn [SF2R]. f_equal. symmetry. apply py_int_eq; cbn; lra.
  - cbn [SF2R]. f_equal. destruct (Z.leb_spec 0 e) as [He | He].
    + assert (Hp : (0 < Z.pos m * 2 ^ e)%Z).
      { apply Z.mul_pos_pos; [lia |]. apply Z.pow_pos_nonneg; lia. }
      destruct (py_int_of_positive (IZR (Z.pos m * 2 ^ e)) (Z.pos m * 2 ^ e))
        as [H1 H2]; [now apply (IZR_lt 0) | apply ZfloorZ |].
      destruct s; symmetry; assumption.
    + assert (Hd : (0 < 2 ^ (- e))%Z) by (apply Z.pow_pos_nonneg; lia).
      assert (Hv : 0 < IZR (Z.pos m) / IZR (2 ^ (- e))).
      { apply Rdiv_lt_0_compat; apply (IZR_lt 0); lia. }
      destruct (py_int_of_positive (IZR (Z.pos m) / IZR (2 ^ (- e)))
                  (Z.pos m / 2 ^ (- e))) as [H1 H2];
        [exact Hv | now apply Zfloor_quotient |].
      destruct s; symmetry; assumption.
Qed.

Lemma n_steps_double_value :
  forall T dt : float,
    double_value dt <> 0 -> double_finite (T / dt) = true ->
    n_steps_double T dt = Value (py_int (double_value (T / dt))).
Proof.
  intros T dt Hdt Hq. unfold n_steps_double.
  unfold double_value in Hdt at 1.
  destruct (Prim2SF dt); try (cbn in Hdt; lra); now apply py_int_double_spec.
Qed.

(** The doubles of the examples and the numbers they stand for. *)
Lemma double_quotient_7_4 :
  double_finite (1.75 / 1) = true /\ double_value (1.75 / 1) = 7 / 4 /\
  double_value 1 = 1.
Proof.
  unfold double_finite, double_value.
  replace (Prim2SF (1.75 / 1)) with (S754_finite false 7881299347898368 (-52))
    by (vm_compute; reflexivity).
  replace (Prim2SF 1) with (S754_finite false 4503599627370496 (-52))
    by (vm_compute; reflexivity).
  cbn [SF2R Z.leb Z.compare Z.opp].
  replace (2 ^ 52)%Z with 4503599627370496%Z by reflexivity.
  repeat split; lra.
Qed.

Lemma double_quotient_3_4 :
  double_finite (0.75 / 1) = true /\ double_value (0.75 / 1) = 3 / 4.
Proof.
  unfold double_finite, double_value.
  replace (Prim2SF (0.75 / 1)) with (S754_finite false 6755399441055744 (-53))
    by (vm_compute; reflexivity).
  cbn [SF2R Z.leb Z.compare Z.opp].
  replace (2 ^ 53)%Z with 9007199254740992%Z by reflexivity.
  repeat split; lra.
Qed.

Lemma double_quotient_weekly :
  double_finite (0.5 / (1 / 52)) = true /\
  double_value (0.5 / (1 / 52)) = 26 /\
  0 < double_value (1 / 52).
Proof.
  unfold double_finite, double_value.
  replace (Prim2SF (0.5 / (1 / 52)))
    with (S754_finite false 7318349394477056 (-48)) by (vm_compute; reflexivity).
  replace (Prim2SF (1 / 52))
    with (S754_finite false 5542891849071380 (-58)) by (vm_compute; reflexivity).
  cbn [SF2R Z.leb Z.compare Z.opp].
  replace (2 ^ 48)%Z with 281474976710656%Z by reflexivity.
  replace (2 ^ 58)%Z with 288230376151711744%Z by reflexivity.
  repeat split; lra.
Qed.

(** On doubles too the step count is not the nearest integer and can be
    zero: [int(1.75 / 1)] is 1 where the nearest integer is 2, and
    [int(0.75 / 1)] is 0. *)
Lemma n_steps_double_not_rounded :
  (0 < double_value 1.75 /\ 0 < double_value 1 /\
   n_steps_double 1.75 1 = Value 1%Z /\
   ~ nearest_integer (double_value (1.75 / 1)) 1) /\
  (0 < double_value 0.75 /\ 0 < double_value 1 /\
   n_steps_double 0.75 1 = Value 0%Z /\
   ~ nearest_integer (double_value (0.75 / 1)) 0 /\
   ~ (1 <= 0)%Z).
Proof.
  destruct double_quotient_7_4 as [_ [E74 E1]].
  destruct double_quotient_3_4 as [_ E34].
  assert (A : forall x, Rabs x <= 1 / 2 -> x <= 1 / 2)
    by (intros x Hx; pose proof (Rle_abs x); lra).
  assert (V175 : 0 < double_value 1.75).
  { unfold double_value.
    replace (Prim2SF 1.75) with (S754_finite false 7881299347898368 (-52))
      by (vm_compute; reflexivity).
    cbn [SF2R Z.leb Z.compare Z.opp].
    replace (2 ^ 52)%Z with 4503599627370496%Z by reflexivity. lra. }
  assert (V075 : 0 < double_value 0.75).
  { unfold double_value.
    replace (Prim2SF 0.75) with (S754_finite false 6755399441055744 (-53))
      by (vm_compute; reflexivity).
    cbn [SF2R Z.leb Z.compare Z.opp].
    replace (2 ^ 53)%Z with 9007199254740992%Z by reflexivity. lra. }
  split; [| split; [| split; [| split; [| split]]]].
  - split; [exact V175 |]. split; [lra |].
    split; [vm_compute; reflexivity |].
    rewrite E74. unfold nearest_integer. intro H. apply A in H. lra.
  - exact V075.
  - lra.
  - vm_compute. reflexivity.
  - rewrite E34. unfold nearest_integer. intro H. apply A in H. lra.
  - lia.
Qed.

(** C5, as the code has it: for a positive [dt] and a finite, non-negative
    double quotient [q = T / dt] (as it is for every [T >= 0] short of an
    overflow), the step count is [q] truncated, the integer [n] with
    [n <= q < n + 1], not the nearest integer; it is at least one exactly
    when [q >= 1]; and every simulated price path has exactly [n]
    entries. *)
Theorem n_steps_truncates :
  forall (normal : nat -> nat -> R) (S0 rf sigma : R) (T dt : float)
         (n_simul : Z),
    0 < double_value dt ->
    double_finite (T / dt) = true -> 0 <= double_value (T / dt) ->
    (0 <= n_simul)%Z ->
    exists n : Z,
      n_steps_double T dt = Value n /\
      IZR n <= double_value (T / dt) < IZR n + 1 /\
      ((1 <= n)%Z <-> 1 <= double_value (T / dt)) /\
      exists rw coeff : ndarray,
        random_walks normal n_simul n = Value rw /\
        coeff_multiplicateur rf sigma (double_value dt)
          (antithetic_random_walks rw) = Value coeff /\
        Forall (fun path => length path = Z.to_nat n)
               (rows (simulated_prices S0 coeff)).
Proof.
  intros normal S0 rf sigma T dt n_simul Hdt Hfin Hq Hs.
  destruct (py_int_bound (double_value (T / dt)) Hq) as [Hn0 Hb].
  exists (py_int (double_value (T / dt))).
  split; [apply n_steps_double_value; [lra | exact Hfin] |].
  split; [exact Hb |]. split; [apply py_int_pos_iff |].
  set (n := py_int (double_value (T / dt))) in *.
  eexists. eexists. split; [apply random_walks_value; assumption |].
  split; [apply coeff_multiplicateur_value; lra |].
  match goal with
  | |- context [antithetic_random_walks ?a] => set (rw := a)
  end.
  assert (Hw : well_shaped rw).
  { apply Forall_forall. intros r Hr. unfold rw in Hr. cbn [rows] in Hr.
    apply in_map_iff in Hr. destruct Hr as [i [<- _]].
    now rewrite length_map, length_seq. }
  destruct (antithetic_shape rw Hw) as [_ [Ac Aw]].
  destruct (simulated_prices_shape S0 rf sigma (double_value dt) _ Aw)
    as [_ [Pc Pw]].
  unfold well_shaped in Pw. rewrite Pc, Ac in Pw. exact Pw.
Qed.

Lemma n_steps_truncates_witness :
  exists n : Z,
    n_steps_double 0.5 (1 / 52) = Value n /\
    IZR n <= double_value (0.5 / (1 / 52)) < IZR n + 1 /\
    ((1 <= n)%Z <-> 1 <= double_value (0.5 / (1 / 52))) /\
    exists rw coeff : ndarray,
      random_walks (fun i j => INR i - INR j) 4 n = Value rw /\
      coeff_multiplicateur (/ 50) (/ 5) (double_value (1 / 52))
        (antithetic_random_walks rw) = Value coeff /\
      Forall (fun path => length path = Z.to_nat n)
             (rows (simulated_prices 100 coeff)).
Proof.
  destruct double_quotient_weekly as [Hf [Hv Hd]].
  apply (n_steps_truncates (fun i j => INR i - INR j) 100 (/ 50) (/ 5)
           0.5%float (1 / 52)%float 4);
    [exact Hd | exact Hf | rewrite Hv; lra | lia].
Defined.

(** * The validation cell on Python values *)

Lemma assert_raised :
  forall (b : bool) (e : exn), assert b = Raised e -> e = AssertionError.
Proof. intros [|] e H; [discriminate | now injection H]. Qed.

Lemma validation_cell_raises :
  forall r e, validation_cell r = Raised e -> e = AssertionError.
Proof.
  intros r e H. unfold validation_cell in H.
  repeat match type of H with
  | bind (assert ?b) _ = _ =>
      destruct b eqn:?; cbn [assert bind] in H; [| now injection H]
  end.
  now apply assert_raised in H.
Qed.

(** The cell passes exactly when the nine assertions hold. *)
Lemma validation_cell_value_iff :
  forall r,
    validation_cell r = Value tt <->
    isinstance_int_float (RawInputs.S0 r) = true /\
    isinstance_int_float (RawInputs.K r) = true /\
    isinstance_int_float (RawInputs.T r) = true /\
    isinstance_int_float (RawInputs.rf r) = true /\
    isinstance_int_float (RawInputs.sigma r) = true /\
    isinstance_int (RawInputs.n_simul r) = true /\
    isinstance_int_float (RawInputs.dt r) = true /\
    py_in (RawInputs.option_type r) ["call"; "put"] = true /\
    py_in (RawInputs.option_nature r) ["european"; "asiatic"] = true.
Proof.
  intro r. unfold validation_cell.
  destruct (isinstance_int_float (RawInputs.S0 r));
    [| cbn; split; [discriminate | intuition discriminate]].
  destruct (isinstance_int_float (RawInputs.K r));
    [| cbn; split; [discriminate | intuition discriminate]].
  destruct (isinstance_int_float (RawInputs.T r));
    [| cbn; split; [discriminate | intuition discriminate]].
  destruct (isinstance_int_float (RawInputs.rf r));
    [| cbn; split; [discriminate | intuition discriminate]].
  destruct (isinstance_int_float (RawInputs.sigma r));
    [| cbn; split; [discriminate | intuition discriminate]].
  destruct (isinstance_int (RawInputs.n_simul r));
    [| cbn; split; [discriminate | intuition discriminate]].
  destruct (isinstance_int_float (RawInputs.dt r));
    [| cbn; split; [discriminate | intuition discriminate]].
  destruct (py_in (RawInputs.option_type r) ["call"; "put"]);
    [| cbn; split; [discriminate | intuition discriminate]].
  destruct (py_in (RawInputs.option_nature r) ["european"; "asiatic"]);
    cbn; split; try discriminate; intuition discriminate.
Qed.

Lemma validation_cell_outcome :
  forall r,
    validation_cell r = Value tt \/ validation_cell r = Raised AssertionError.
Proof.
  intro r. destruct (validation_cell r) as [[] | e |] eqn:E.
  - now left.
  - right. now rewrite (validation_cell_raises r e E).
  - exfalso. unfold validation_cell in E.
    repeat match type of E with
    | bind (assert ?b) _ = _ => destruct b; cbn [assert bind] in E;
                                [| discriminate]
    end.
    destruct (py_in _ _); discriminate.
Qed.

Lemma py_in_typed :
  forall v l, py_in v l = true -> str_in (py_text v) l = true.
Proof. intros [n | x | b | s |] l H; try discriminate. exact H. Qed.

(** X11: on the inputs as Python values, the two cells raise
    [AssertionError] exactly when one of the nine assertions fails: one of
    [S0], [K], [T], [rf], [sigma], [dt] is neither an [int] nor a [float],
    [n_simul] is not an [int], [option_type] is not ["call"] or ["put"], or
    [option_nature] is not ["european"] or ["asiatic"]. *)
Theorem notebook_assertion_error_iff :
  forall (normal : nat -> nat -> R) (r : RawInputs.t),
    notebook normal r = Raised AssertionError <->
    isinstance_int_float (RawInputs.S0 r) = false \/
    isinstance_int_float (RawInputs.K r) = false \/
    isinstance_int_float (RawInputs.T r) = false \/
    isinstance_int_float (RawInputs.rf r) = false \/
    isinstance_int_float (RawInputs.sigma r) = false \/
    isinstance_int (RawInputs.n_simul r) = false \/
    isinstance_int_float (RawInputs.dt r) = false \/
    py_in (RawInputs.option_type r) ["call"; "put"] = false \/
    py_in (RawInputs.option_nature r) ["european"; "asiatic"] = false.
Proof.
  intros normal r. unfold notebook.
  pose proof (validation_cell_value_iff r) as V.
  destruct (validation_cell_outcome r) as [E | E]; rewrite E; cbn [bind].
  - apply (proj1 V) in E.
    destruct E as [H1 [H2 [H3 [H4 [H5 [H6 [H7 [H8 H9]]]]]]]].
    split.
    + intro H. apply assertion_error_iff in H.
      unfold typed in H. cbn [Inputs.option_type Inputs.option_nature] in H.
      apply py_in_typed in H8. apply py_in_typed in H9.
      destruct H as [H | H]; congruence.
    + intro H. exfalso. intuition congruence.
  - split; [| reflexivity]. intros _.
    destruct (isinstance_int_float (RawInputs.S0 r)); [| tauto].
    destruct (isinstance_int_float (RawInputs.K r)); [| tauto].
    destruct (isinstance_int_float (RawInputs.T r)); [| tauto].
    destruct (isinstance_int_float (RawInputs.rf r)); [| tauto].
    destruct (isinstance_int_float (RawInputs.sigma r)); [| tauto].
    destruct (isinstance_int (RawInputs.n_simul r)); [| tauto].
    destruct (isinstance_int_float (RawInputs.dt r)); [| tauto].
    destruct (py_in (RawInputs.option_type r) ["call"; "put"]); [| tauto].
    destruct (py_in (RawInputs.option_nature r) ["european"; "asiatic"]);
      [| tauto].
    exfalso. assert (validation_cell r = Value tt) by (apply V; tauto).
    congruence.
Qed.

(** A float where an integer is asserted: [n_simul = 4.0] stops the
    validation cell although the strings are valid. *)
Example notebook_float_n_simul :
  notebook (fun _ _ => 0)
    (RawInputs.make (PyInt 100) (PyInt 90) (PyFloat (/ 2)) (PyFloat (/ 50))
       (PyFloat (/ 5)) (PyFloat 4) (PyFloat (/ 4)) (PyStr "call")
       (PyStr "european"))
  = Raised AssertionError.
Proof. reflexivity. Qed.
